(** * Relay server (Backend.py): binding, routing, cleanup, heartbeat, timed delivery

    A shallow embedding of the WebSocket relay of [Backend.py].  The three
    module-level dictionaries ([client_connections], [binding_relations],
    [client_timers]) are the shared store; coroutines become functions in a
    state-and-exception monad over that store, and every message put on a
    transport is recorded in a trace.

    Modelling conventions.
    - A Python [dict] iterates in insertion order and two of the loops of the
      program iterate a dictionary while sending, so dictionaries are
      insertion-ordered association lists ([Dict]).
    - A WebSocket object is a handle ([ws], a number); its condition lives in
      the store.  [ws.open] is true for [Up] and [Failing]; [ws.send] succeeds
      on [Up] only and raises [ConnectionClosed] otherwise ([Failing] is a
      transport whose peer is gone but whose closure was not yet noticed).
    - A received frame is a frame of the wire schema: text that [json.loads]
      refuses with [JSONDecodeError], or a JSON object whose fields, when
      present, are strings.  Other frames (JSON that is not an object,
      fields that are not strings, binary frames that are not UTF-8) are
      outside the model, and so are identifiers that are not strings, but
      for the unhashable [client_id] of the [finally] block.
    - The functions are first given as units ([on_message], [cleanup],
      [heartbeat_round]) and composed in a transition system whose steps are
      those units.  The last part gives the [finally] block and the server
      again at the grain of the awaits of that block, where other handlers
      run between its steps. *)

From Stdlib Require Import String Ascii List ZArith QArith_base Lia Bool Arith.
Import ListNotations.
Local Close Scope Q_scope.
Local Open Scope string_scope.
Local Open Scope list_scope.

Set Implicit Arguments.

(** ** Python dictionaries keyed by strings *)

Module Dict.

Definition t (V : Type) : Type := list (string * V).

(** [d.get(k)] *)
Fixpoint get {V} (k : string) (d : t V) : option V :=
  match d with
  | [] => None
  | (k', v) :: r => if String.eqb k k' then Some v else get k r
  end.

(** [k in d] *)
Definition mem {V} (k : string) (d : t V) : bool :=
  match get k d with Some _ => true | None => false end.

(** [d[k] = v]: replaces in place, or appends a new last entry. *)
Fixpoint set {V} (k : string) (v : V) (d : t V) : t V :=
  match d with
  | [] => [(k, v)]
  | (k', v') :: r =>
      if String.eqb k k' then (k, v) :: r else (k', v') :: set k v r
  end.

(** [del d[k]] for a key that is there, and nothing for one that is not: the
    callers test membership first.  The one deletion that comes after an
    await of its test is given apart, as [del_binding]. *)
Fixpoint del {V} (k : string) (d : t V) : t V :=
  match d with
  | [] => []
  | (k', v') :: r =>
      if String.eqb k k' then del k r else (k', v') :: del k r
  end.

(** [d.keys()], [d.values()], [d.items()] *)
Definition keys {V} (d : t V) : list string := map fst d.
Definition values {V} (d : t V) : list V := map snd d.
Definition items {V} (d : t V) : list (string * V) := d.

End Dict.

(** [x in d.values()] for string values *)
Definition in_values (x : string) (d : Dict.t string) : bool :=
  existsb (String.eqb x) (Dict.values d).

(** ** Strings *)

(** [s.split(sep)] for a one-character separator *)
Fixpoint split_on (sep : ascii) (s : string) : list string :=
  match s with
  | EmptyString => [EmptyString]
  | String c r =>
      if Ascii.eqb c sep then EmptyString :: split_on sep r
      else match split_on sep r with
           | h :: tl => String c h :: tl
           | [] => [String c EmptyString]
           end
  end.

(** [s.startswith(p)] *)
Definition startswith (s p : string) : bool := String.prefix p s.

Definition hyphen : ascii := "-"%char.

(** ** Wire messages, transports, the shared store *)

Definition ws := nat.
Definition task := nat.

(** The JSON object [{"type":..,"clientId":..,"targetId":..,"message":..}] *)
Record Msg : Type := mkMsg {
  m_type : string;
  m_clientId : string;
  m_targetId : string;
  m_message : string
}.

(** A received frame of the wire schema, as [json.loads] and the
    required-field test see it: [NotJson] is text on which [json.loads]
    raises [JSONDecodeError]; [Obj] is a JSON object, with the string value
    of each of the four fields it has. *)
Inductive frame : Type :=
| NotJson
| Obj (type_ clientId targetId message : option string).

Definition frame_of (m : Msg) : frame :=
  Obj (Some (m_type m)) (Some (m_clientId m)) (Some (m_targetId m))
      (Some (m_message m)).

Inductive link : Type := Up | Failing | Down.

Inductive exn : Type := KeyError | IndexError | TypeError | ConnectionClosed.

Inductive event : Type :=
| Sent (w : ws) (m : Msg)     (* [await w.send(json.dumps(m))] completed *)
| Closed (w : ws)             (* [await w.close()] *)
| Cancel (t : task)           (* [t.cancel()] *)
| Slept (seconds : Q).        (* [await asyncio.sleep(seconds)] *)

Record world : Type := mkWorld {
  client_connections : Dict.t ws;
  binding_relations : Dict.t string;
  client_timers : Dict.t task;
  sockets : list (ws * link);      (* condition of every transport *)
  finished : list task;            (* tasks for which [done()] holds *)
  trace : list event
}.

Definition empty_world : world := mkWorld [] [] [] [] [] [].

Fixpoint link_of (w : ws) (l : list (ws * link)) : link :=
  match l with
  | [] => Down
  | (w', k) :: r => if Nat.eqb w w' then k else link_of w r
  end.

Definition is_open (k : link) : bool :=
  match k with Down => false | _ => true end.

Definition set_connections (c : Dict.t ws) (s : world) : world :=
  mkWorld c (binding_relations s) (client_timers s) (sockets s) (finished s)
          (trace s).
Definition set_bindings (b : Dict.t string) (s : world) : world :=
  mkWorld (client_connections s) b (client_timers s) (sockets s) (finished s)
          (trace s).
Definition set_timers (t : Dict.t task) (s : world) : world :=
  mkWorld (client_connections s) (binding_relations s) t (sockets s)
          (finished s) (trace s).
Definition set_sockets (k : list (ws * link)) (s : world) : world :=
  mkWorld (client_connections s) (binding_relations s) (client_timers s) k
          (finished s) (trace s).
Definition emit (e : event) (s : world) : world :=
  mkWorld (client_connections s) (binding_relations s) (client_timers s)
          (sockets s) (finished s) (trace s ++ [e]).

(** ** The monad of coroutines: shared store plus Python exceptions *)

Inductive res (A : Type) : Type :=
| Ok (a : A) (s : world)
| Raise (e : exn) (s : world).
Arguments Ok {A} a s.
Arguments Raise {A} e s.

Definition M (A : Type) : Type := world -> res A.

Definition ret {A} (a : A) : M A := fun s => Ok a s.
Definition raise {A} (e : exn) : M A := fun s => Raise e s.
Definition bind {A B} (c : M A) (k : A -> M B) : M B :=
  fun s => match c s with
           | Ok a s' => k a s'
           | Raise e s' => Raise e s'
           end.

(** [try: c  except Exception: h] *)
Definition try_except {A} (c : M A) (h : exn -> M A) : M A :=
  fun s => match c s with
           | Ok a s' => Ok a s'
           | Raise e s' => h e s'
           end.

Definition gets {A} (f : world -> A) : M A := fun s => Ok (f s) s.
Definition modify (f : world -> world) : M unit := fun s => Ok tt (f s).

Definition state_of {A} (r : res A) : world :=
  match r with Ok _ s => s | Raise _ s => s end.

Definition raised {A} (r : res A) : option exn :=
  match r with Ok _ _ => None | Raise e _ => Some e end.

Declare Scope py_scope.
Delimit Scope py_scope with py.
Notation "x <- c ;; k" := (bind c (fun x => k))
  (at level 61, c at next level, right associativity) : py_scope.
Notation "c ;; k" := (bind c (fun _ => k))
  (at level 61, right associativity) : py_scope.
Local Open Scope py_scope.

(** [when b c] is [if b: c] *)
Definition when (b : bool) (c : M unit) : M unit := if b then c else ret tt.

(** ** Transport operations *)

(** [ws.open] *)
Definition ws_open (w : ws) : M bool :=
  gets (fun s => is_open (link_of w (sockets s))).

(** [await ws.send(json.dumps(m))] *)
Definition ws_send (w : ws) (m : Msg) : M unit :=
  fun s => match link_of w (sockets s) with
           | Up => Ok tt (emit (Sent w m) s)
           | _ => Raise ConnectionClosed s
           end.

(** The transport table with [w] put in condition [k] *)
Fixpoint set_link (w : ws) (k : link) (l : list (ws * link))
  : list (ws * link) :=
  match l with
  | [] => [(w, k)]
  | (w', k') :: r =>
      if Nat.eqb w w' then (w, k) :: r else (w', k') :: set_link w k r
  end.

(** [await ws.close()] *)
Definition ws_close (w : ws) : M unit :=
  modify (fun s =>
    emit (Closed w) (set_sockets (set_link w Down (sockets s)) s)).

(** [client_connections[k]], raising [KeyError] when absent *)
Definition connection (k : string) : M ws :=
  fun s => match Dict.get k (client_connections s) with
           | Some w => Ok w s
           | None => Raise KeyError s
           end.

(** [try: c  finally: f] *)
Definition finally {A} (c : M A) (f : M unit) : M A :=
  fun s => match c s with
           | Ok a s' => match f s' with
                        | Ok _ s'' => Ok a s''
                        | Raise e s'' => Raise e s''
                        end
           | Raise e s' => match f s' with
                           | Ok _ s'' => Raise e s''
                           | Raise e' s'' => Raise e' s''
                           end
           end.

Definition or_empty (o : option string) : string :=
  match o with Some x => x | None => "" end.

(** ** [send_heartbeat]: one round of its endless loop *)

(** The [for client_id, ws in client_connections.items()] loop; the dictionary
    [heartbeat_msg] is updated in place and carried from entry to entry. *)
Fixpoint heartbeat_loop (items : list (string * ws)) (heartbeat_msg : Msg)
  : M Msg :=
  match items with
  | [] => ret heartbeat_msg
  | (client_id, w) :: rest =>
      o <- ws_open w ;;
      if o then
        b <- gets binding_relations ;;
        let msg := mkMsg (m_type heartbeat_msg) client_id
                         (or_empty (Dict.get client_id b))
                         (m_message heartbeat_msg) in
        ws_send w msg ;;
        heartbeat_loop rest msg
      else heartbeat_loop rest heartbeat_msg
  end.

Definition heartbeat_init : Msg := mkMsg "heartbeat" "" "" "200".

(** The body of [while True] up to [asyncio.sleep(HEARTBEAT_INTERVAL)] *)
Definition heartbeat_round (heartbeat_msg : Msg) : M Msg :=
  c <- gets client_connections ;;
  match c with
  | [] => ret heartbeat_msg
  | _ :: _ => heartbeat_loop (Dict.items c) heartbeat_msg
  end.

Definition HEARTBEAT_INTERVAL : Q := 60.

(** [send_heartbeat], cut after [rounds] rounds of its [while True] *)
Fixpoint send_heartbeat (rounds : nat) (heartbeat_msg : Msg) : M Msg :=
  match rounds with
  | O => ret heartbeat_msg
  | S n =>
      m <- heartbeat_round heartbeat_msg ;;
      modify (emit (Slept HEARTBEAT_INTERVAL)) ;;
      send_heartbeat n m
  end.

(** ** [validate_relation] *)

Definition partner_is (b : Dict.t string) (client_id target_id : string)
  : bool :=
  match Dict.get client_id b with
  | Some p => String.eqb p target_id
  | None => false
  end.

Definition validate_relation (client_id target_id : string) (w : ws)
                             (s : world) : bool * string :=
  match Dict.get client_id (client_connections s),
        Dict.get target_id (client_connections s) with
  | Some wc, Some wt =>
      if negb (Nat.eqb wc w) && negb (Nat.eqb wt w) then (false, "404")
      else if negb (partner_is (binding_relations s) client_id target_id)
           then (false, "402")
           else (true, "200")
  | _, _ => (false, "404")
  end.

(** ** [cancel_timer] *)

Definition timer_key_of (client_id channel : string) : string :=
  String.append client_id (String.append "-" channel).

Definition cancel_timer (client_id channel : string) : M unit :=
  let timer_key := timer_key_of client_id channel in
  timers <- gets client_timers ;;
  match Dict.get timer_key timers with
  | Some t =>
      fin <- gets finished ;;
      when (negb (existsb (Nat.eqb t) fin)) (modify (emit (Cancel t))) ;;
      modify (fun s => set_timers (Dict.del timer_key (client_timers s)) s)
  | None => ret tt
  end.

(** ** [handle_client]: the per-message body *)

Definition handle_bind (w : ws) (client_id target_id : string) : M unit :=
  conns <- gets client_connections ;;
  if negb (Dict.mem target_id conns) then
    ws_send w (mkMsg "bind" client_id target_id "401")
  else
    b <- gets binding_relations ;;
    if Dict.mem client_id b || in_values target_id b then
      ws_send w (mkMsg "bind" client_id target_id "400")
    else
      modify (fun s =>
        set_bindings (Dict.set client_id target_id (binding_relations s)) s) ;;
      modify (fun s =>
        set_bindings (Dict.set target_id client_id (binding_relations s)) s) ;;
      let bind_success := mkMsg "bind" client_id target_id "200" in
      wc <- connection client_id ;;
      ws_send wc bind_success ;;
      wt <- connection target_id ;;
      ws_send wt bind_success.

Definition handle_other (w : ws) (type_ client_id target_id message : string)
  : M unit :=
  v <- gets (validate_relation client_id target_id w) ;;
  if negb (fst v) then
    ws_send w (mkMsg "error" client_id target_id (snd v))
  else
    target_ws <- connection target_id ;;
    ws_send target_ws (mkMsg type_ client_id target_id message).

(** One iteration of [async for message in ws], with its two handlers *)
Definition on_message (w : ws) (fr : frame) : M unit :=
  match fr with
  | NotJson => ws_send w (mkMsg "error" "" "" "403")
  | Obj ty cid tid msg =>
      try_except
        (match ty, cid, tid, msg with
         | Some type_, Some client_id, Some target_id, Some message =>
             if String.eqb type_ "bind" then handle_bind w client_id target_id
             else handle_other w type_ client_id target_id message
         | _, _, _, _ => ws_send w (mkMsg "error" "" "" "403")
         end)
        (fun _ => ws_send w (mkMsg "error" (or_empty cid) (or_empty tid) "500"))
  end.

(** The local variable [client_id] after the frame: the assignment
    [client_id = data["clientId"]] runs exactly when the four fields exist. *)
Definition client_id_after (client_id : string) (fr : frame) : string :=
  match fr with
  | Obj (Some _) (Some c) (Some _) (Some _) => c
  | _ => client_id
  end.

(** ** [handle_client]: the [finally] block

    Here the block is run as a unit, with a string in [client_id] and nothing
    happening during its two awaits; the deletions then find their keys.  The
    last part of the file cuts the block at its awaits. *)

Definition remove_connection (client_id : string) : M unit :=
  conns <- gets client_connections ;;
  when (Dict.mem client_id conns)
       (modify (fun s =>
          set_connections (Dict.del client_id (client_connections s)) s)).

Definition break_msg (client_id target_id : string) : Msg :=
  mkMsg "break" client_id target_id "209".

Definition teardown_binding (client_id : string) : M unit :=
  b <- gets binding_relations ;;
  match Dict.get client_id b with
  | Some target_id =>
      conns <- gets client_connections ;;
      match Dict.get target_id conns with
      | Some wt =>
          o <- ws_open wt ;;
          when o (ws_send wt (break_msg client_id target_id) ;; ws_close wt)
      | None => ret tt
      end ;;
      modify (fun s =>
        set_bindings (Dict.del client_id (binding_relations s)) s) ;;
      b' <- gets binding_relations ;;
      when (Dict.mem target_id b')
           (modify (fun s =>
              set_bindings (Dict.del target_id (binding_relations s)) s))
  | None => ret tt
  end.

(** [for key in list(client_timers.keys())] over the snapshot [ks] *)
Fixpoint cancel_owned (client_id : string) (ks : list string) : M unit :=
  match ks with
  | [] => ret tt
  | key :: rest =>
      (if startswith key (String.append client_id "-") then
         match nth_error (split_on hyphen key) 1 with
         | Some channel => cancel_timer client_id channel
         | None => raise IndexError
         end
       else ret tt) ;;
      cancel_owned client_id rest
  end.

Definition cancel_timers_of (client_id : string) : M unit :=
  ks <- gets (fun s => Dict.keys (client_timers s)) ;;
  cancel_owned client_id ks.

Definition cleanup (client_id : string) : M unit :=
  remove_connection client_id ;;
  teardown_binding client_id ;;
  cancel_timers_of client_id.

(** ** [handle_client]: a whole connection, run without interleaving *)

Definition accept (w : ws) (uuid4 : string) : M unit :=
  modify (fun s =>
    set_connections (Dict.set uuid4 w (client_connections s)) s) ;;
  ws_send w (mkMsg "bind" uuid4 "" "targetId").

Fixpoint read_loop (w : ws) (client_id : string) (frames : list frame)
                   (s : world) : string * res unit :=
  match frames with
  | [] => (client_id, Ok tt s)
  | fr :: rest =>
      let client_id' := client_id_after client_id fr in
      match on_message w fr s with
      | Ok _ s' => read_loop w client_id' rest s'
      | Raise e s' => (client_id', Raise e s')
      end
  end.

(** What the [try / except ConnectionClosed / finally] does with the way the
    read loop ended, [client_id] being the local variable at that moment. *)
Definition end_of_loop (client_id : string) (r : res unit) : res unit :=
  match r with
  | Ok _ s | Raise ConnectionClosed s => cleanup client_id s
  | Raise e s => match cleanup client_id s with
                 | Ok _ s' => Raise e s'
                 | Raise e' s' => Raise e' s'
                 end
  end.

Definition handle_client (w : ws) (uuid4 : string) (frames : list frame)
  : M unit :=
  fun s =>
    match accept w uuid4 s with
    | Raise e s1 => Raise e s1
    | Ok _ s1 =>
        let (client_id, r) := read_loop w uuid4 frames s1 in
        end_of_loop client_id r
    end.

(** ** [delay_send_msg] *)

(** [await asyncio.sleep(time_space)]: while the task is suspended the network
    moves on; [net i] is the condition of the transports when the task
    resumes from its sleep number [i] (counted from 0). *)
Definition sleep (net : nat -> list (ws * link)) (i : nat) (time_space : Q)
  : M unit :=
  modify (fun s => emit (Slept time_space) (set_sockets (net i) s)).

(** The [while total_sends > 0] loop.  [remaining] is [total_sends] on entry:
    the loop runs while it is positive and takes one off per round, so it is
    a recursion on [Z.to_nat total_sends]. *)
Fixpoint send_remaining (net : nat -> list (ws * link)) (target_ws : ws)
                        (send_data : Msg) (time_space : Q)
                        (remaining : nat) (i : nat) : M unit :=
  match remaining with
  | O => ret tt
  | S n =>
      sleep net i time_space ;;
      o <- ws_open target_ws ;;
      if negb o then ret tt
      else
        ws_send target_ws send_data ;;
        send_remaining net target_ws send_data time_space n (S i)
  end.

Definition drop_timer (timer_key : string) : M unit :=
  timers <- gets client_timers ;;
  when (Dict.mem timer_key timers)
       (modify (fun s => set_timers (Dict.del timer_key (client_timers s)) s)).

(** The [try] block *)
Definition send_all (net : nat -> list (ws * link)) (target_ws : ws)
                    (send_data : Msg) (total_sends : Z) (time_space : Q)
  : M unit :=
  o <- ws_open target_ws ;;
  when o (ws_send target_ws send_data) ;;
  let total_sends := (total_sends - 1)%Z in
  send_remaining net target_ws send_data time_space (Z.to_nat total_sends) 0.

Definition delay_send_msg (net : nat -> list (ws * link))
                          (client_id : string) (target_ws : ws)
                          (send_data : Msg) (total_sends : Z)
                          (time_space : Q) (channel : string) : M unit :=
  let timer_key := timer_key_of client_id channel in
  finally (send_all net target_ws send_data total_sends time_space)
          (drop_timer timer_key).

(** ** The server as a transition system *)

(** Besides the shared store, every running [handle_client] has its local
    variable [client_id].  No step starts a delivery task: the program
    defines [delay_send_msg] and removes entries of [client_timers], but
    never adds one.  A step is one of the units above, run to its end: these
    are the runs in which no handler acts while another is inside an await.
    The system with the [finally] block suspended at its awaits is
    [isystem], in the last part. *)
Record system : Type := mkSystem {
  sys_world : world;
  sys_local : list (ws * string)
}.

Definition initial : system := mkSystem empty_world [].

Fixpoint local_of (w : ws) (l : list (ws * string)) : option string :=
  match l with
  | [] => None
  | (w', c) :: r => if Nat.eqb w w' then Some c else local_of w r
  end.

Fixpoint forget (w : ws) (l : list (ws * string)) : list (ws * string) :=
  match l with
  | [] => []
  | (w', c) :: r => if Nat.eqb w w' then forget w r else (w', c) :: forget w r
  end.

Inductive action : Type :=
| Connect (w : ws) (uuid4 : string)   (* a client connects; the id is drawn *)
| Receive (w : ws) (fr : frame)       (* the read loop of [w] gets a frame *)
| Hangup (w : ws)                     (* the read loop of [w] ends *)
| Heartbeat                           (* a round of [send_heartbeat] *)
| Network (k : list (ws * link)).     (* transports change condition *)

Definition perform (a : action) (y : system) : system :=
  let s := sys_world y in
  let l := sys_local y in
  match a with
  | Connect w uuid4 =>
      match local_of w l with
      | Some _ => y
      | None =>
          match accept w uuid4 s with
          | Ok _ s' => mkSystem s' ((w, uuid4) :: l)
          | Raise _ s' => mkSystem s' l
          end
      end
  | Receive w fr =>
      match local_of w l with
      | None => y
      | Some client_id =>
          let client_id' := client_id_after client_id fr in
          match on_message w fr s with
          | Ok _ s' => mkSystem s' ((w, client_id') :: forget w l)
          | Raise e s' =>
              mkSystem (state_of (end_of_loop client_id' (Raise e s')))
                       (forget w l)
          end
      end
  | Hangup w =>
      match local_of w l with
      | None => y
      | Some client_id =>
          mkSystem (state_of (end_of_loop client_id (Ok tt s))) (forget w l)
      end
  | Heartbeat => mkSystem (state_of (heartbeat_round heartbeat_init s)) l
  | Network k => mkSystem (set_sockets k s) l
  end.

Definition run_from (y : system) (acts : list action) : system :=
  fold_left (fun y a => perform a y) acts y.

Definition run (acts : list action) : system := run_from initial acts.

Definition reachable (y : system) : Prop := exists acts, y = run acts.

(** * Properties *)

(** The end-to-end scenario of the protocol: A connects and is told its
    identifier; its bind to the unknown B1 is answered 401; B connects; the
    bind succeeds and both are told 200; a command of A reaches B unchanged;
    B goes away, A is told [break]/209 and its transport is closed. *)
Example end_to_end :
  trace (sys_world (run
    [Network [(1, Up); (2, Up)];
     Connect 1 "A1";
     Receive 1 (frame_of (mkMsg "bind" "A1" "B1" "targetId"));
     Connect 2 "B1";
     Receive 1 (frame_of (mkMsg "bind" "A1" "B1" "targetId"));
     Receive 1 (frame_of (mkMsg "cmd" "A1" "B1" "strength-1+2+50"));
     Receive 2 (frame_of (mkMsg "ack" "B1" "A1" "ok"));
     Network [(1, Up); (2, Down)];
     Hangup 2]))
  = [Sent 1 (mkMsg "bind" "A1" "" "targetId");
     Sent 1 (mkMsg "bind" "A1" "B1" "401");
     Sent 2 (mkMsg "bind" "B1" "" "targetId");
     Sent 1 (mkMsg "bind" "A1" "B1" "200");
     Sent 2 (mkMsg "bind" "A1" "B1" "200");
     Sent 2 (mkMsg "cmd" "A1" "B1" "strength-1+2+50");
     Sent 1 (mkMsg "ack" "B1" "A1" "ok");
     Sent 1 (mkMsg "break" "B1" "A1" "209");
     Closed 1].
Proof. reflexivity. Qed.

(** ** Dictionaries *)

Module DictFacts.
Import Dict.

Lemma get_set_eq {V} (k : string) (v : V) (d : t V) :
  get k (set k v d) = Some v.
Proof.
  induction d as [|[k' v'] r IH]; simpl.
  - now rewrite String.eqb_refl.
  - destruct (String.eqb k k') eqn:E; simpl.
    + now rewrite String.eqb_refl.
    + now rewrite E.
Qed.

Lemma get_set_ne {V} (k k' : string) (v : V) (d : t V) :
  k <> k' -> get k' (set k v d) = get k' d.
Proof.
  intros Hne. induction d as [|[k0 v0] r IH]; simpl.
  - destruct (String.eqb_spec k' k); congruence.
  - destruct (String.eqb_spec k k0) as [->|Hk]; simpl.
    + destruct (String.eqb_spec k' k0); congruence.
    + destruct (String.eqb_spec k' k0); congruence.
Qed.

Lemma get_del_eq {V} (k : string) (d : t V) : get k (del k d) = None.
Proof.
  induction d as [|[k0 v0] r IH]; simpl; auto.
  destruct (String.eqb k k0) eqn:E; simpl; auto.
  now rewrite E.
Qed.

Lemma get_del_ne {V} (k k' : string) (d : t V) :
  k <> k' -> get k' (del k d) = get k' d.
Proof.
  intros Hne. induction d as [|[k0 v0] r IH]; simpl; auto.
  destruct (String.eqb_spec k k0) as [->|Hk]; simpl.
  - destruct (String.eqb_spec k' k0); congruence.
  - destruct (String.eqb_spec k' k0); congruence.
Qed.

Lemma mem_false {V} (k : string) (d : t V) :
  mem k d = false <-> get k d = None.
Proof. unfold mem. destruct (get k d); split; congruence. Qed.

Lemma in_keys_set {V} (k k' : string) (v : V) (d : t V) :
  In k' (keys (set k v d)) <-> k' = k \/ In k' (keys d).
Proof.
  induction d as [|[k0 v0] r IH]; simpl.
  - intuition congruence.
  - destruct (String.eqb_spec k k0) as [->|Hk]; simpl; intuition congruence.
Qed.

Lemma in_keys_del {V} (k k' : string) (d : t V) :
  In k' (keys (del k d)) <-> k' <> k /\ In k' (keys d).
Proof.
  induction d as [|[k0 v0] r IH]; simpl.
  - intuition.
  - destruct (String.eqb_spec k k0) as [->|Hk]; simpl; intuition congruence.
Qed.

Lemma nodup_set {V} (k : string) (v : V) (d : t V) :
  NoDup (keys d) -> NoDup (keys (set k v d)).
Proof.
  induction d as [|[k0 v0] r IH]; simpl; intros H.
  - constructor; [intros []|constructor].
  - inversion H as [|? ? Hnin Hnd]; subst.
    destruct (String.eqb_spec k k0) as [->|Hk]; simpl.
    + now constructor.
    + constructor; auto.
      intros Hin. apply in_keys_set in Hin. destruct Hin; congruence.
Qed.

Lemma nodup_del {V} (k : string) (d : t V) :
  NoDup (keys d) -> NoDup (keys (del k d)).
Proof.
  induction d as [|[k0 v0] r IH]; simpl; intros H; auto.
  inversion H as [|? ? Hnin Hnd]; subst.
  destruct (String.eqb_spec k k0) as [->|Hk]; simpl; auto.
  constructor; auto.
  intros Hin. apply in_keys_del in Hin. tauto.
Qed.

End DictFacts.

Lemma in_values_get (x k : string) (d : Dict.t string) :
  Dict.get k d = Some x -> in_values x d = true.
Proof.
  unfold in_values, Dict.values.
  induction d as [|[k0 v0] r IH]; simpl; try discriminate.
  destruct (String.eqb_spec k k0) as [->|Hk].
  - intros [= ->]. now rewrite String.eqb_refl.
  - intros H. rewrite (IH H). apply orb_true_r.
Qed.

(** ** Routing of one frame *)

(** Unfolds the monad so that a computation applied to a store reduces. *)
Ltac unfold_monad :=
  unfold connection, ws_open, ws_send, ws_close, when, try_except,
         bind, gets, modify, ret, raise in *.

Lemma partner_is_spec (b : Dict.t string) (c t : string) :
  partner_is b c t = true <-> Dict.get c b = Some t.
Proof.
  unfold partner_is. destruct (Dict.get c b) as [p|].
  - destruct (String.eqb_spec p t); split; congruence.
  - split; discriminate.
Qed.

Lemma validate_relation_ok (c t : string) (w : ws) (s : world) :
  fst (validate_relation c t w s) = true <->
  exists wc wt,
    Dict.get c (client_connections s) = Some wc /\
    Dict.get t (client_connections s) = Some wt /\
    (wc = w \/ wt = w) /\
    Dict.get c (binding_relations s) = Some t.
Proof.
  unfold validate_relation.
  destruct (Dict.get c (client_connections s)) as [wc|];
    [destruct (Dict.get t (client_connections s)) as [wt|]|].
  - destruct (Nat.eqb_spec wc w) as [->|Hc]; simpl.
    + destruct (partner_is _ c t) eqn:P; simpl.
      * apply partner_is_spec in P. split; eauto 8.
      * split; [discriminate|]. intros (?&?&_&_&_&H).
        apply partner_is_spec in H. congruence.
    + destruct (Nat.eqb_spec wt w) as [->|Ht]; simpl.
      * destruct (partner_is _ c t) eqn:P; simpl.
        -- apply partner_is_spec in P. split; eauto 8.
        -- split; [discriminate|]. intros (?&?&_&_&_&H).
           apply partner_is_spec in H. congruence.
      * split; [discriminate|]. intros (?&?&[= <-]&[= <-]&[?|?]&_); congruence.
  - simpl. split; [discriminate|]. intros (?&?&_&?&_); congruence.
  - simpl. split; [discriminate|]. intros (?&?&?&_); congruence.
Qed.

Lemma not_bind (ty : string) : ty <> "bind" -> String.eqb ty "bind" = false.
Proof. intros H. now destruct (String.eqb_spec ty "bind"). Qed.

Lemma msg_eta (m : Msg) :
  mkMsg (m_type m) (m_clientId m) (m_targetId m) (m_message m) = m.
Proof. now destruct m. Qed.

(** A rejected non-bind frame: the only effect is the error answer. *)
Lemma handle_other_rejected (s : world) (w : ws) (ty c t body : string) :
  fst (validate_relation c t w s) = false ->
  link_of w (sockets s) = Up ->
  handle_other w ty c t body s =
  Ok tt (emit (Sent w (mkMsg "error" c t (snd (validate_relation c t w s)))) s).
Proof.
  intros Hv Hw. unfold handle_other. unfold_monad.
  rewrite Hv. simpl. now rewrite Hw.
Qed.

(** C9: a non-bind message between a validly bound pair reaches the target's
    transport with the kind, origin identifier, target identifier and body it
    was received with, and nothing else happens. *)
Theorem forward_preserves_message (s : world) (w wc wt : ws) (m : Msg) :
  m_type m <> "bind" ->
  Dict.get (m_clientId m) (client_connections s) = Some wc ->
  Dict.get (m_targetId m) (client_connections s) = Some wt ->
  wc = w \/ wt = w ->
  Dict.get (m_clientId m) (binding_relations s) = Some (m_targetId m) ->
  link_of wt (sockets s) = Up ->
  on_message w (frame_of m) s = Ok tt (emit (Sent wt m) s).
Proof.
  intros Hty Hc Ht Hw Hb Hup.
  assert (Hv : fst (validate_relation (m_clientId m) (m_targetId m) w s) = true)
    by (apply validate_relation_ok; eauto 8).
  unfold on_message, frame_of. rewrite (not_bind Hty).
  unfold handle_other. unfold_monad. rewrite Hv. simpl.
  rewrite Ht, Hup. now rewrite msg_eta.
Qed.

Definition relay_world : world :=
  mkWorld [("A1", 1); ("B1", 2); ("C1", 3)] [("A1", "B1"); ("B1", "A1")] []
          [(1, Up); (2, Up); (3, Up)] [] [].

Lemma forward_preserves_message_witness :
  on_message 1 (frame_of (mkMsg "cmd" "A1" "B1" "strength-1+2+50")) relay_world
  = Ok tt (emit (Sent 2 (mkMsg "cmd" "A1" "B1" "strength-1+2+50")) relay_world).
Proof.
  apply (@forward_preserves_message relay_world 1 1 2
           (mkMsg "cmd" "A1" "B1" "strength-1+2+50")).
  - simpl. discriminate.
  - reflexivity.
  - reflexivity.
  - left. reflexivity.
  - reflexivity.
  - reflexivity.
Defined.

(** The claim C7 as it is worded: an unregistered identifier gives 404, a
    registered pair whose origin is not bound to the claimed target gives 402,
    and the error answer is the only effect. *)
Definition not_found_then_not_bound (s : world) (w : ws) (m : Msg) : Prop :=
  m_type m <> "bind" ->
  link_of w (sockets s) = Up ->
  let c := m_clientId m in
  let t := m_targetId m in
  ((Dict.mem c (client_connections s) = false \/
    Dict.mem t (client_connections s) = false) ->
   on_message w (frame_of m) s = Ok tt (emit (Sent w (mkMsg "error" c t "404")) s))
  /\
  (Dict.mem c (client_connections s) = true ->
   Dict.mem t (client_connections s) = true ->
   Dict.get c (binding_relations s) <> Some t ->
   on_message w (frame_of m) s = Ok tt (emit (Sent w (mkMsg "error" c t "402")) s)).

Definition unbound_world : world :=
  mkWorld [("A1", 1); ("B1", 2); ("C1", 3)] [] []
          [(1, Up); (2, Up); (3, Up)] [] [].

(** C7, counterexample: the connection C1 names the registered, unbound
    identifiers A1 and B1 as origin and target; the answer is 404, not 402. *)
Lemma third_party_gets_404 :
  on_message 3 (frame_of (mkMsg "cmd" "A1" "B1" "x")) unbound_world
  = Ok tt (emit (Sent 3 (mkMsg "error" "A1" "B1" "404")) unbound_world)
  /\ ~ not_found_then_not_bound unbound_world 3 (mkMsg "cmd" "A1" "B1" "x").
Proof.
  split; [reflexivity|].
  intros H. destruct H as [_ H]; simpl; try discriminate; try reflexivity.
  specialize (H eq_refl eq_refl). simpl in H.
  assert (Hne : Dict.get "A1" (binding_relations unbound_world) <> Some "B1")
    by (simpl; discriminate).
  specialize (H Hne). vm_compute in H. discriminate H.
Qed.

(** C7 (amended): a non-bind frame is answered with error 404 when the origin
    or the target identifier is unregistered, and also when both are
    registered but the sending connection is neither of them; it is answered
    with error 402 when the sender is one of the two and the origin's recorded
    partner is not the claimed target.  In each case the answer to the sender
    is the only effect: nothing is forwarded. *)
Theorem reject_unrelated (s : world) (w : ws) (m : Msg) (code : string) :
  m_type m <> "bind" ->
  link_of w (sockets s) = Up ->
  ((Dict.mem (m_clientId m) (client_connections s) = false \/
    Dict.mem (m_targetId m) (client_connections s) = false \/
    exists wc wt,
      Dict.get (m_clientId m) (client_connections s) = Some wc /\
      Dict.get (m_targetId m) (client_connections s) = Some wt /\
      wc <> w /\ wt <> w) /\ code = "404"
   \/
   (exists wc wt,
      Dict.get (m_clientId m) (client_connections s) = Some wc /\
      Dict.get (m_targetId m) (client_connections s) = Some wt /\
      (wc = w \/ wt = w) /\
      Dict.get (m_clientId m) (binding_relations s) <> Some (m_targetId m))
   /\ code = "402") ->
  on_message w (frame_of m) s
  = Ok tt (emit (Sent w (mkMsg "error" (m_clientId m) (m_targetId m) code)) s).
Proof.
  intros Hty Hw Hcase.
  unfold on_message, frame_of. rewrite (not_bind Hty).
  unfold try_except.
  assert (Hv : validate_relation (m_clientId m) (m_targetId m) w s
               = (false, code)).
  { unfold validate_relation.
    destruct Hcase as [[Hc ->]|[(wc & wt & Hc & Ht & Hs & Hb) ->]].
    - destruct Hc as [Hc|[Hc|(wc & wt & Hc & Ht & Hnc & Hnt)]].
      + apply DictFacts.mem_false in Hc. now rewrite Hc.
      + apply DictFacts.mem_false in Hc. rewrite Hc.
        now destruct (Dict.get (m_clientId m) (client_connections s)).
      + rewrite Hc, Ht.
        apply Nat.eqb_neq in Hnc, Hnt. now rewrite Hnc, Hnt.
    - rewrite Hc, Ht.
      assert (Hn : negb (Nat.eqb wc w) && negb (Nat.eqb wt w) = false).
      { destruct Hs as [->| ->]; rewrite Nat.eqb_refl; simpl; auto.
        apply andb_false_r. }
      rewrite Hn.
      destruct (partner_is _ _ _) eqn:P; auto.
      apply partner_is_spec in P. contradiction. }
  rewrite handle_other_rejected by (try rewrite Hv; auto).
  now rewrite Hv.
Qed.

Lemma reject_unrelated_witness :
  on_message 1 (frame_of (mkMsg "cmd" "A1" "C1" "x")) relay_world
  = Ok tt (emit (Sent 1 (mkMsg "error" "A1" "C1" "402")) relay_world).
Proof.
  apply (@reject_unrelated relay_world 1 (mkMsg "cmd" "A1" "C1" "x") "402").
  - simpl. discriminate.
  - reflexivity.
  - right. split; [|reflexivity].
    exists 1, 3. simpl. repeat split; auto. discriminate.
Defined.

(** ** Bind requests *)

Definition bind_frame (c t body : string) : frame :=
  Obj (Some "bind") (Some c) (Some t) (Some body).

(** A bind request naming an unregistered target is answered 401 and changes
    nothing else. *)
Lemma bind_unknown_target (s : world) (w : ws) (c t body : string) :
  Dict.mem t (client_connections s) = false ->
  link_of w (sockets s) = Up ->
  on_message w (bind_frame c t body) s
  = Ok tt (emit (Sent w (mkMsg "bind" c t "401")) s).
Proof.
  intros Ht Hw. unfold on_message, bind_frame. simpl.
  unfold handle_bind. unfold_monad. rewrite Ht. simpl. now rewrite Hw.
Qed.

(** C1, the code at a failing input: C1's connection sends a bind request
    whose origin identifier X0 is not registered and whose target B1 is.  The
    request is not refused: both directions of a binding X0 <-> B1 are stored,
    the lookup of X0's connection then raises [KeyError], and the sender is
    told 500. *)
Theorem bind_unregistered_origin_creates_binding :
  Dict.mem "X0" (client_connections unbound_world) = false /\
  exists s',
    on_message 3 (bind_frame "X0" "B1" "targetId") unbound_world = Ok tt s' /\
    binding_relations s' = [("X0", "B1"); ("B1", "X0")] /\
    trace s' = [Sent 3 (mkMsg "error" "X0" "B1" "500")].
Proof.
  split; [reflexivity|].
  eexists. split; [reflexivity|]. split; reflexivity.
Qed.

(** The claim C8 as it is worded: a bind request whose origin has a partner,
    or whose target is someone's partner, is answered 400 and changes nothing
    else. *)
Definition rebind_gives_400 (s : world) (w : ws) (c t body : string) : Prop :=
  link_of w (sockets s) = Up ->
  Dict.mem c (binding_relations s) = true \/
  in_values t (binding_relations s) = true ->
  on_message w (bind_frame c t body) s
  = Ok tt (emit (Sent w (mkMsg "bind" c t "400")) s).

(** C8, counterexample: A1 is bound to B1 and asks to bind to Z9, which is
    not registered; the answer is 401, not 400. *)
Lemma rebind_to_unknown_target_gets_401 :
  Dict.get "A1" (binding_relations relay_world) = Some "B1" /\
  on_message 1 (bind_frame "A1" "Z9" "targetId") relay_world
  = Ok tt (emit (Sent 1 (mkMsg "bind" "A1" "Z9" "401")) relay_world)
  /\ ~ rebind_gives_400 relay_world 1 "A1" "Z9" "targetId".
Proof.
  split; [reflexivity|]. split; [reflexivity|].
  intros H. unfold rebind_gives_400 in H.
  specialize (H eq_refl (or_introl eq_refl)).
  vm_compute in H. discriminate H.
Qed.

(** C8 (amended): a bind request whose target identifier is registered, and
    whose origin already has a partner or whose target is already someone's
    partner, is answered with a bind response of code 400; the answer is the
    only effect, so the existing bindings are not overwritten. *)
Theorem rebind_rejected (s : world) (w : ws) (c t body : string) :
  link_of w (sockets s) = Up ->
  Dict.mem t (client_connections s) = true ->
  Dict.mem c (binding_relations s) = true \/
  in_values t (binding_relations s) = true ->
  on_message w (bind_frame c t body) s
  = Ok tt (emit (Sent w (mkMsg "bind" c t "400")) s).
Proof.
  intros Hw Ht Hb. unfold on_message, bind_frame. simpl.
  unfold handle_bind. unfold_monad. rewrite Ht. simpl.
  assert (Hor : Dict.mem c (binding_relations s)
                || in_values t (binding_relations s) = true)
    by (apply orb_true_iff; exact Hb).
  rewrite Hor. now rewrite Hw.
Qed.

Lemma rebind_rejected_witness :
  on_message 3 (bind_frame "C1" "B1" "targetId") relay_world
  = Ok tt (emit (Sent 3 (mkMsg "bind" "C1" "B1" "400")) relay_world).
Proof.
  apply (@rebind_rejected relay_world 3 "C1" "B1" "targetId").
  - reflexivity.
  - reflexivity.
  - right. reflexivity.
Defined.

(** ** Disconnect cleanup *)

Lemma del_absent {V} (k : string) (d : Dict.t V) :
  Dict.get k d = None -> Dict.del k d = d.
Proof.
  induction d as [|[k0 v0] r IH]; simpl; auto.
  destruct (String.eqb k k0); [discriminate|].
  intros H. now rewrite IH.
Qed.

Lemma link_of_set_link (w : ws) (k : link) (l : list (ws * link)) :
  link_of w (set_link w k l) = k.
Proof.
  induction l as [|[w0 k0] r IH]; simpl.
  - now rewrite Nat.eqb_refl.
  - destruct (Nat.eqb w w0) eqn:E; simpl.
    + now rewrite Nat.eqb_refl.
    + now rewrite E.
Qed.

Lemma set_connections_same (s : world) :
  set_connections (client_connections s) s = s.
Proof. now destruct s. Qed.

(** Step 1 never raises and leaves the identifier unregistered. *)
Lemma remove_connection_eq (c : string) (s : world) :
  remove_connection c s
  = Ok tt (set_connections (Dict.del c (client_connections s)) s).
Proof.
  unfold remove_connection. unfold_monad.
  destruct (Dict.mem c (client_connections s)) eqn:E; auto.
  apply DictFacts.mem_false in E.
  now rewrite (del_absent _ _ E), set_connections_same.
Qed.

(** The store once both directions of the binding [c <-> p] are deleted *)
Definition unbind (c p : string) (s : world) : world :=
  set_bindings (Dict.del p (Dict.del c (binding_relations s))) s.

(** The partner's transport after its notification *)
Definition notified (c p : string) (wp : ws) (s : world) : world :=
  emit (Closed wp)
       (set_sockets (set_link wp Down (sockets s))
                    (emit (Sent wp (break_msg c p)) s)).

(** Step 2, case by case. *)
Lemma teardown_binding_eq (c : string) (s : world) :
  teardown_binding c s =
  match Dict.get c (binding_relations s) with
  | None => Ok tt s
  | Some p =>
      match Dict.get p (client_connections s) with
      | None => Ok tt (unbind c p s)
      | Some wp =>
          match link_of wp (sockets s) with
          | Up => Ok tt (unbind c p (notified c p wp s))
          | Failing => Raise ConnectionClosed s
          | Down => Ok tt (unbind c p s)
          end
      end
  end.
Proof.
  assert (Hdel : forall (b : Dict.t string) p s0,
    (if Dict.mem p b then Ok tt (set_bindings (Dict.del p b) s0)
     else Ok tt s0) = Ok tt (set_bindings (Dict.del p b) s0) \/
    Dict.get p b = None).
  { intros b p s0. destruct (Dict.mem p b) eqn:E; auto.
    right. now apply DictFacts.mem_false. }
  unfold teardown_binding, unbind, notified. unfold_monad.
  destruct (Dict.get c (binding_relations s)) as [p|] eqn:Hc; auto.
  destruct (Dict.get p (client_connections s)) as [wp|] eqn:Hp; simpl.
  - destruct (link_of wp (sockets s)) eqn:Hl; simpl; auto.
    + rewrite Hl. simpl.
      destruct (Dict.mem p (Dict.del c (binding_relations s))) eqn:E; auto.
      apply DictFacts.mem_false in E. now rewrite (del_absent _ _ E).
    + now rewrite Hl.
    + destruct (Dict.mem p (Dict.del c (binding_relations s))) eqn:E; auto.
      apply DictFacts.mem_false in E. now rewrite (del_absent _ _ E).
  - destruct (Dict.mem p (Dict.del c (binding_relations s))) eqn:E; auto.
    apply DictFacts.mem_false in E. now rewrite (del_absent _ _ E).
Qed.

(** What the timer pass may change: the timer table, and the trace by
    cancellations only. *)
Definition only_cancels (s s' : world) : Prop :=
  client_connections s' = client_connections s /\
  binding_relations s' = binding_relations s /\
  sockets s' = sockets s /\
  finished s' = finished s /\
  exists ts, trace s' = trace s ++ map Cancel ts.

Lemma only_cancels_refl (s : world) : only_cancels s s.
Proof.
  repeat split; auto. exists []. simpl. now rewrite app_nil_r.
Qed.

Lemma only_cancels_trans (s1 s2 s3 : world) :
  only_cancels s1 s2 -> only_cancels s2 s3 -> only_cancels s1 s3.
Proof.
  intros (A1 & B1 & C1 & D1 & t1 & E1) (A2 & B2 & C2 & D2 & t2 & E2).
  repeat split; try congruence.
  exists (t1 ++ t2). rewrite E2, E1, map_app. now rewrite app_assoc.
Qed.

Lemma cancel_timer_ok (c ch : string) (s : world) :
  exists s', cancel_timer c ch s = Ok tt s' /\ only_cancels s s'.
Proof.
  unfold cancel_timer. unfold_monad.
  destruct (Dict.get (timer_key_of c ch) (client_timers s)) as [t|].
  - destruct (negb (existsb (Nat.eqb t) (finished s))); simpl.
    + eexists. split; [reflexivity|].
      repeat split; auto. exists [t]. reflexivity.
    + eexists. split; [reflexivity|].
      repeat split; auto. exists []. simpl. now rewrite app_nil_r.
  - eexists. split; [reflexivity|]. apply only_cancels_refl.
Qed.

Lemma split_on_nonempty (sep : ascii) (s : string) : split_on sep s <> [].
Proof.
  destruct s as [|a r]; simpl; try discriminate.
  destruct (Ascii.eqb a sep); try discriminate.
  destruct (split_on sep r); discriminate.
Qed.

Lemma prefix_cons (a b : ascii) (p r : string) :
  String.prefix (String a p) (String b r) = true ->
  a = b /\ String.prefix p r = true.
Proof.
  change (String.prefix (String a p) (String b r))
    with (if ascii_dec a b then String.prefix p r else false).
  destruct (ascii_dec a b); [auto|discriminate].
Qed.

(** A key that starts with [client_id + "-"] has a second field. *)
Lemma split_on_second (c key : string) :
  startswith key (String.append c "-") = true ->
  exists ch, nth_error (split_on hyphen key) 1 = Some ch.
Proof.
  unfold startswith. revert key.
  induction c as [|a c IH]; intros [|b r] H; try discriminate H.
  - apply prefix_cons in H. destruct H as [<- _].
    cbn [split_on]. unfold hyphen. rewrite Ascii.eqb_refl.
    destruct (split_on "-" r) eqn:E; [now apply split_on_nonempty in E|].
    simpl. eauto.
  - change (String.append (String a c) "-")
      with (String a (String.append c "-")) in H.
    apply prefix_cons in H. destruct H as [<- H].
    destruct (IH r H) as [ch Hch]. cbn [split_on].
    destruct (Ascii.eqb a hyphen).
    + destruct (split_on hyphen r) as [|h [|h' tl]]; simpl in *;
        try discriminate; eauto.
    + destruct (split_on hyphen r) as [|h [|h' tl]]; simpl in *;
        try discriminate; eauto.
Qed.

(** Step 3 never raises. *)
Lemma cancel_owned_ok (c : string) (ks : list string) (s : world) :
  exists s', cancel_owned c ks s = Ok tt s' /\ only_cancels s s'.
Proof.
  revert s. induction ks as [|key rest IH]; intros s; cbn [cancel_owned].
  - eexists. split; [reflexivity|]. apply only_cancels_refl.
  - unfold bind.
    destruct (startswith key (String.append c "-")) eqn:P.
    + destruct (split_on_second _ _ P) as [ch ->].
      destruct (cancel_timer_ok c ch s) as (s1 & -> & H1).
      destruct (IH s1) as (s2 & -> & H2).
      exists s2. split; eauto using only_cancels_trans.
    + unfold ret. apply IH.
Qed.

Lemma cancel_timers_of_ok (c : string) (s : world) :
  exists s', cancel_timers_of c s = Ok tt s' /\ only_cancels s s'.
Proof. unfold cancel_timers_of, bind, gets. apply cancel_owned_ok. Qed.

(** The claim C2 as it is worded, read on the store the [finally] block
    leaves: the identifier is unregistered, it holds no binding, and none of
    its timers is left. *)
Definition every_step_runs (c : string) (s : world) : Prop :=
  let s' := state_of (cleanup c s) in
  Dict.get c (client_connections s') = None /\
  Dict.get c (binding_relations s') = None /\
  forall channel, Dict.get (timer_key_of c channel) (client_timers s') = None.

Definition failing_partner_world : world :=
  mkWorld [("A1", 1); ("B1", 2)] [("A1", "B1"); ("B1", "A1")]
          [("A1-pulse", 7)] [(1, Down); (2, Failing)] [] [].

(** C2, counterexample: A1 is bound to B1 and owns a timer; B1's transport
    still reads open but its send raises.  The exception leaves the [finally]
    block at once: the binding and the timer of A1 are still there. *)
Lemma failed_notification_skips_later_steps :
  (exists s',
     cleanup "A1" failing_partner_world = Raise ConnectionClosed s' /\
     binding_relations s' = [("A1", "B1"); ("B1", "A1")] /\
     client_timers s' = [("A1-pulse", 7)])
  /\ ~ every_step_runs "A1" failing_partner_world.
Proof.
  split.
  - eexists. split; [reflexivity|]. split; reflexivity.
  - intros (_ & H & _). vm_compute in H. discriminate H.
Qed.

Lemma cleanup_after_removal (c : string) (s : world) :
  cleanup c s
  = bind (teardown_binding c) (fun _ => cancel_timers_of c)
         (set_connections (Dict.del c (client_connections s)) s).
Proof. unfold cleanup. unfold bind at 1. now rewrite remove_connection_eq. Qed.

(** With the connection's own identifier in [client_id], the [finally] block
    notifies an open partner once, closes it, and unbinds both. *)
Lemma cleanup_notifies_partner (s : world) (c p : string) (wp : ws) :
  Dict.get c (binding_relations s) = Some p ->
  c <> p ->
  Dict.get p (client_connections s) = Some wp ->
  link_of wp (sockets s) = Up ->
  exists s' ts,
    cleanup c s = Ok tt s' /\
    trace s' = trace s ++ Sent wp (break_msg c p) :: Closed wp :: map Cancel ts /\
    link_of wp (sockets s') = Down /\
    Dict.get c (binding_relations s') = None /\
    Dict.get p (binding_relations s') = None.
Proof.
  intros Hb Hne Hp Hup.
  set (s1 := set_connections (Dict.del c (client_connections s)) s).
  assert (Ht : teardown_binding c s1 = Ok tt (unbind c p (notified c p wp s1))).
  { rewrite teardown_binding_eq. simpl. rewrite Hb.
    rewrite DictFacts.get_del_ne by exact Hne. now rewrite Hp, Hup. }
  destruct (cancel_timers_of_ok c (unbind c p (notified c p wp s1)))
    as (s3 & H3 & _ & Hkb & Hks & _ & ts & Hkt).
  exists s3, ts. split.
  - unfold cleanup. unfold bind at 1. rewrite remove_connection_eq.
    fold s1. unfold bind. now rewrite Ht.
  - split.
    + rewrite Hkt. simpl. now rewrite <- !app_assoc.
    + split.
      * rewrite Hks. simpl. apply link_of_set_link.
      * rewrite Hkb. simpl. split.
        -- rewrite DictFacts.get_del_ne by congruence.
           apply DictFacts.get_del_eq.
        -- apply DictFacts.get_del_eq.
Qed.

Definition two_clients : list action :=
  [Network [(1, Up); (2, Up)]; Connect 1 "A1"; Connect 2 "B1"].

(** C3, the code at a failing input: A1 is registered; a second client
    connects and is assigned B1; it sends one frame whose [clientId] field is
    A1 (it is answered 402), and its read loop ends.  The cleanup deletes the
    registry entry of A1, a live connection, and leaves the entry of B1
    behind. *)
Theorem cleanup_removes_last_claimed_id :
  let s0 := mkWorld [("A1", 1)] [] [] [(1, Up); (2, Up)] [] [] in
  exists s',
    handle_client 2 "B1" [frame_of (mkMsg "msg" "A1" "B1" "x")] s0 = Ok tt s' /\
    client_connections s' = [("B1", 2)] /\
    trace s' = [Sent 2 (mkMsg "bind" "B1" "" "targetId");
                Sent 2 (mkMsg "error" "A1" "B1" "402")].
Proof. eexists. split; [reflexivity|]. split; reflexivity. Qed.

(** C5, the code at a failing input: B1's connection asks for the binding
    with the frame [bind A1 -> B1], so its handler's [client_id] is A1 when
    the connection goes away.  The cleanup then treats A1 as the one that
    left: the partner A1 is sent no break message and is not closed; it is
    unregistered instead, and B1 stays registered. *)
Theorem disconnect_after_foreign_bind_skips_partner :
  let before :=
    run (two_clients ++ [Receive 2 (bind_frame "A1" "B1" "DGLAB")]) in
  let after := run_from before [Network [(1, Up); (2, Down)]; Hangup 2] in
  binding_relations (sys_world before) = [("A1", "B1"); ("B1", "A1")] /\
  trace (sys_world after) = trace (sys_world before) /\
  link_of 1 (sockets (sys_world after)) = Up /\
  client_connections (sys_world after) = [("B1", 2)].
Proof. repeat split. Qed.

(** The timer pass rebuilds the key from [client_id] and the second
    hyphen-separated field of the key; with an identifier in the format of
    [uuid.uuid4()], that field is part of the identifier, and the timer is
    not found. *)
Remark uuid_timer_survives_cleanup :
  let c := "0f8fad5b-d9cb-469f-a165-70867728950e" in
  let s := mkWorld [(c, 1)] [] [(timer_key_of c "A", 7)] [(1, Down)] [] [] in
  exists s',
    cleanup c s = Ok tt s' /\
    client_timers s' = [(timer_key_of c "A", 7)].
Proof. eexists. split; reflexivity. Qed.

(** ** The binding map in every reachable state *)

Definition symmetric (b : Dict.t string) : Prop :=
  forall a p, Dict.get a b = Some p -> Dict.get p b = Some a.

(** At most one partner each: one entry per identifier, and no identifier is
    the partner of two. *)
Definition exclusive (b : Dict.t string) : Prop :=
  NoDup (Dict.keys b) /\
  forall a a' p, Dict.get a b = Some p -> Dict.get a' b = Some p -> a = a'.

(** Every binding pairs two identifiers, not one with itself. *)
Definition pairs_two (b : Dict.t string) : Prop :=
  forall a p, Dict.get a b = Some p -> a <> p.

Lemma symmetric_exclusive (b : Dict.t string) :
  symmetric b -> NoDup (Dict.keys b) -> exclusive b.
Proof.
  intros Hs Hn. split; [exact Hn|].
  intros a a' p Ha Ha'. apply Hs in Ha, Ha'. congruence.
Qed.

Lemma symmetric_bind (b : Dict.t string) (c t : string) :
  symmetric b ->
  Dict.mem c b = false ->
  in_values t b = false ->
  symmetric (Dict.set t c (Dict.set c t b)).
Proof.
  intros Hs Hc Ht a p H.
  apply DictFacts.mem_false in Hc.
  destruct (String.eqb_spec t a) as [<-|Hta].
  - rewrite DictFacts.get_set_eq in H. injection H as <-.
    destruct (String.eqb_spec t c) as [->|Htc].
    + apply DictFacts.get_set_eq.
    + rewrite DictFacts.get_set_ne by exact Htc. apply DictFacts.get_set_eq.
  - rewrite DictFacts.get_set_ne in H by exact Hta.
    destruct (String.eqb_spec c a) as [<-|Hca].
    + rewrite DictFacts.get_set_eq in H. injection H as <-.
      apply DictFacts.get_set_eq.
    + rewrite DictFacts.get_set_ne in H by exact Hca.
      assert (Hpt : t <> p).
      { intros ->. apply in_values_get in H. congruence. }
      assert (Hpc : c <> p).
      { intros ->. apply Hs in H. congruence. }
      rewrite !DictFacts.get_set_ne by assumption. now apply Hs.
Qed.

Lemma symmetric_unbind (b : Dict.t string) (c p : string) :
  symmetric b ->
  Dict.get c b = Some p ->
  symmetric (Dict.del p (Dict.del c b)).
Proof.
  intros Hs Hc a q H.
  assert (Hp : Dict.get p b = Some c) by now apply Hs.
  destruct (String.eqb_spec p a) as [<-|Hpa];
    [now rewrite DictFacts.get_del_eq in H|].
  rewrite DictFacts.get_del_ne in H by exact Hpa.
  destruct (String.eqb_spec c a) as [<-|Hca];
    [now rewrite DictFacts.get_del_eq in H|].
  rewrite DictFacts.get_del_ne in H by exact Hca.
  assert (Hq : Dict.get q b = Some a) by now apply Hs.
  assert (Hqc : c <> q) by (intros ->; congruence).
  assert (Hqp : p <> q) by (intros ->; congruence).
  now rewrite !DictFacts.get_del_ne by assumption.
Qed.

(** The invariant carried along a run *)
Definition well_paired (s : world) : Prop :=
  symmetric (binding_relations s) /\ NoDup (Dict.keys (binding_relations s)).

Lemma ws_send_bindings (w : ws) (m : Msg) (s : world) :
  binding_relations (state_of (ws_send w m s)) = binding_relations s.
Proof. unfold ws_send. now destruct (link_of w (sockets s)). Qed.

(** What a bind request does to the binding map. *)
Lemma handle_bind_bindings (w : ws) (c t : string) (s : world) :
  let b := binding_relations s in
  let b' := binding_relations (state_of (handle_bind w c t s)) in
  b' = b \/
  (Dict.mem c b = false /\ in_values t b = false /\
   b' = Dict.set t c (Dict.set c t b)).
Proof.
  unfold handle_bind. unfold_monad. simpl.
  destruct (Dict.mem t (client_connections s)); simpl;
    [|left; apply ws_send_bindings].
  destruct (Dict.mem c (binding_relations s)) eqn:Hc; simpl;
    [left; apply ws_send_bindings|].
  destruct (in_values t (binding_relations s)) eqn:Ht; simpl;
    [left; apply ws_send_bindings|].
  right. repeat split.
  destruct (Dict.get c (client_connections s)) as [wc|]; [|reflexivity].
  cbn. destruct (link_of wc (sockets s)); cbn; try reflexivity.
  destruct (Dict.get t (client_connections s)) as [wt|]; [|reflexivity].
  cbn. destruct (link_of wt (sockets s)); reflexivity.
Qed.

Lemma handle_other_bindings (w : ws) (ty c t body : string) (s : world) :
  binding_relations (state_of (handle_other w ty c t body s))
  = binding_relations s.
Proof.
  unfold handle_other. unfold_monad.
  destruct (negb (fst (validate_relation c t w s)));
    [apply ws_send_bindings|].
  destruct (Dict.get t (client_connections s)) as [wt|]; [|reflexivity].
  destruct (link_of wt (sockets s)); reflexivity.
Qed.

Lemma try_except_send_bindings (c : M unit) (w : ws) (m : Msg) (s : world) :
  binding_relations (state_of (try_except c (fun _ => ws_send w m) s))
  = binding_relations (state_of (c s)).
Proof.
  unfold try_except. destruct (c s) as [a s'|e s']; [reflexivity|].
  apply ws_send_bindings.
Qed.

Lemma on_message_well_paired (w : ws) (fr : frame) (s : world) :
  well_paired s -> well_paired (state_of (on_message w fr s)).
Proof.
  intros [Hs Hn]. unfold well_paired, on_message.
  destruct fr as [|ty c t body]; [now rewrite ws_send_bindings|].
  rewrite try_except_send_bindings.
  destruct ty as [ty|], c as [c|], t as [t|], body as [body|];
    try (now rewrite ws_send_bindings).
  destruct (String.eqb ty "bind"); [|now rewrite handle_other_bindings].
  destruct (handle_bind_bindings w c t s) as [->|(Hc & Ht & ->)]; [auto|].
  split.
  - now apply symmetric_bind.
  - now apply DictFacts.nodup_set, DictFacts.nodup_set.
Qed.

(** What the cleanup does to the binding map. *)
Lemma cleanup_bindings (c : string) (s : world) :
  let b := binding_relations s in
  let b' := binding_relations (state_of (cleanup c s)) in
  b' = b \/ exists p, Dict.get c b = Some p /\ b' = Dict.del p (Dict.del c b).
Proof.
  cbv zeta. rewrite cleanup_after_removal.
  set (s1 := set_connections (Dict.del c (client_connections s)) s).
  unfold bind. rewrite teardown_binding_eq.
  change (binding_relations s1) with (binding_relations s).
  assert (Hk : forall s2,
    binding_relations (state_of (cancel_timers_of c s2)) = binding_relations s2).
  { intros s2. destruct (cancel_timers_of_ok c s2) as (s3 & -> & _ & Hb & _).
    exact Hb. }
  destruct (Dict.get c (binding_relations s)) as [p|] eqn:Hc;
    [|left; cbv beta iota; now rewrite Hk].
  destruct (Dict.get p (client_connections s1)) as [wp|];
    [destruct (link_of wp (sockets s1))|]; cbv beta iota; rewrite ?Hk;
    try (left; reflexivity); right; exists p; split; reflexivity.
Qed.

Lemma cleanup_well_paired (c : string) (s : world) :
  well_paired s -> well_paired (state_of (cleanup c s)).
Proof.
  intros [Hs Hn]. unfold well_paired.
  destruct (cleanup_bindings c s) as [->|(p & Hp & ->)]; [auto|].
  split.
  - now apply symmetric_unbind.
  - now apply DictFacts.nodup_del, DictFacts.nodup_del.
Qed.

Lemma end_of_loop_state (c : string) (r : res unit) :
  state_of (end_of_loop c r) = state_of (cleanup c (state_of r)).
Proof.
  destruct r as [[] s|e s]; simpl; [reflexivity|].
  destruct e; simpl; try reflexivity;
    now destruct (cleanup c s).
Qed.

(** One entry of the heartbeat loop, by the condition of its transport. *)
Lemma heartbeat_loop_cons (c : string) (w : ws) (rest : list (string * ws))
                          (m : Msg) (s : world) :
  heartbeat_loop ((c, w) :: rest) m s =
  match link_of w (sockets s) with
  | Up =>
      let msg := mkMsg (m_type m) c
                       (or_empty (Dict.get c (binding_relations s)))
                       (m_message m) in
      heartbeat_loop rest msg (emit (Sent w msg) s)
  | Failing => Raise ConnectionClosed s
  | Down => heartbeat_loop rest m s
  end.
Proof.
  cbn [heartbeat_loop]. unfold_monad.
  destruct (link_of w (sockets s)) eqn:E; cbn [is_open]; cbv beta;
    rewrite ?E; reflexivity.
Qed.

Lemma heartbeat_loop_bindings (items : list (string * ws)) (m : Msg)
                              (s : world) :
  binding_relations (state_of (heartbeat_loop items m s)) = binding_relations s.
Proof.
  revert m s. induction items as [|[c w] rest IH]; intros m s;
    [reflexivity|].
  rewrite heartbeat_loop_cons.
  destruct (link_of w (sockets s)); cbv zeta; rewrite ?IH; reflexivity.
Qed.

Lemma perform_well_paired (a : action) (y : system) :
  well_paired (sys_world y) -> well_paired (sys_world (perform a y)).
Proof.
  intros H. destruct y as [s l]. cbn [sys_world] in H.
  destruct a as [w u|w fr|w| |k]; cbn [perform sys_world sys_local].
  - destruct (local_of w l); [exact H|].
    unfold accept. unfold_monad. cbn.
    destruct (link_of w (sockets s)); exact H.
  - destruct (local_of w l) as [c|]; [|exact H].
    pose proof (on_message_well_paired w fr H) as H'.
    destruct (on_message w fr s) as [[] s'|e s']; [exact H'|].
    cbn [sys_world]. rewrite end_of_loop_state.
    now apply cleanup_well_paired.
  - destruct (local_of w l) as [c|]; [|exact H].
    cbn [sys_world]. rewrite end_of_loop_state.
    now apply cleanup_well_paired.
  - unfold well_paired, heartbeat_round. unfold_monad.
    destruct (client_connections s); [exact H|].
    now rewrite heartbeat_loop_bindings.
  - exact H.
Qed.

Lemma run_from_well_paired (acts : list action) (y : system) :
  well_paired (sys_world y) -> well_paired (sys_world (run_from y acts)).
Proof.
  revert y. induction acts as [|a acts IH]; intros y H; [exact H|].
  apply IH. now apply perform_well_paired.
Qed.

(** The claim C4 as it is worded. *)
Definition symmetric_exclusive_pairs (b : Dict.t string) : Prop :=
  symmetric b /\ exclusive b /\ pairs_two b.

Definition self_bind : list action :=
  [Network [(1, Up)]; Connect 1 "A1"; Receive 1 (bind_frame "A1" "A1" "x")].

(** C4, counterexample: a connection whose bind request names its own
    identifier as origin and as target is bound to itself. *)
Lemma self_binding_is_reachable :
  reachable (run self_bind) /\
  binding_relations (sys_world (run self_bind)) = [("A1", "A1")] /\
  ~ symmetric_exclusive_pairs (binding_relations (sys_world (run self_bind))).
Proof.
  split; [now exists self_bind|]. split; [reflexivity|].
  intros (_ & _ & H). now apply (H "A1" "A1").
Qed.

Definition bound_pair : list action :=
  two_clients ++ [Receive 1 (bind_frame "A1" "B1" "targetId")].

(** ** Heartbeat *)

(** The store with the events [es] added to the trace *)
Definition emit_all (es : list event) (s : world) : world :=
  mkWorld (client_connections s) (binding_relations s) (client_timers s)
          (sockets s) (finished s) (trace s ++ es).

(** The heartbeat owed to a registry entry: its own identifier, its partner
    or the empty string, and the status 200 *)
Definition heartbeat_for (s : world) (e : string * ws) : event :=
  Sent (snd e)
       (mkMsg "heartbeat" (fst e)
              (or_empty (Dict.get (fst e) (binding_relations s))) "200").

Definition live (s : world) (e : string * ws) : bool :=
  is_open (link_of (snd e) (sockets s)).

Lemma emit_all_nil (s : world) : emit_all [] s = s.
Proof. unfold emit_all. rewrite app_nil_r. now destruct s. Qed.

Lemma emit_all_emit (e : event) (es : list event) (s : world) :
  emit_all es (emit e s) = emit_all (e :: es) s.
Proof. unfold emit_all, emit. simpl. now rewrite <- app_assoc. Qed.

(** A heartbeat message as the loop carries it from round to round: only its
    [clientId] and [targetId] fields are ever rewritten. *)
Definition heartbeat_shaped (m : Msg) : Prop :=
  m_type m = "heartbeat" /\ m_message m = "200".

Lemma heartbeat_loop_sends (items : list (string * ws)) (m : Msg) (s : world) :
  heartbeat_shaped m ->
  (forall e, In e items -> link_of (snd e) (sockets s) <> Failing) ->
  exists m',
    heartbeat_shaped m' /\
    heartbeat_loop items m s
    = Ok m' (emit_all (map (heartbeat_for s) (filter (live s) items)) s).
Proof.
  revert m s. induction items as [|[c w] rest IH]; intros m s Hm Hok.
  - exists m. simpl. now rewrite emit_all_nil.
  - rewrite heartbeat_loop_cons.
    assert (Hw : link_of w (sockets s) <> Failing)
      by (apply (Hok (c, w)); now left).
    assert (Hrest : forall e, In e rest -> link_of (snd e) (sockets s) <> Failing)
      by (intros e He; apply Hok; now right).
    cbn [filter]. unfold live at 1. cbn [snd].
    destruct (link_of w (sockets s)) eqn:E; [|contradiction|].
    + cbv zeta. destruct Hm as [-> ->].
      set (msg := mkMsg "heartbeat" c
                        (or_empty (Dict.get c (binding_relations s))) "200").
      destruct (IH msg (emit (Sent w msg) s)) as (m' & Hm' & ->);
        [now split|exact Hrest|].
      exists m'. now rewrite emit_all_emit.
    + cbn [is_open]. now apply IH.
Qed.







(** ** Timed delivery *)

(** [n] further copies, each after one interval *)
Fixpoint pulse (w : ws) (data : Msg) (t : Q) (n : nat) : list event :=
  match n with
  | O => []
  | S n' => Slept t :: Sent w data :: pulse w data t n'
  end.

Definition is_sent_to (w : ws) (e : event) : bool :=
  match e with Sent w' _ => Nat.eqb w w' | _ => false end.

(** Number of messages put on transport [w] in a trace *)
Definition count_sent (w : ws) (tr : list event) : nat :=
  length (filter (is_sent_to w) tr).

Lemma count_sent_pulse (w : ws) (data : Msg) (t : Q) (n : nat) :
  count_sent w (pulse w data t n) = n.
Proof.
  unfold count_sent. induction n as [|n IH]; simpl; auto.
  rewrite Nat.eqb_refl. simpl. now rewrite IH.
Qed.

Lemma count_sent_app (w : ws) (a b : list event) :
  count_sent w (a ++ b) = count_sent w a + count_sent w b.
Proof. unfold count_sent. now rewrite filter_app, length_app. Qed.

(** What [delay_send_msg] may change besides the trace: the transports are
    those of the network, the registry and bindings stay as they are. *)
Lemma send_remaining_cons (net : nat -> list (ws * link)) (w : ws)
      (data : Msg) (t : Q) (n i : nat) (s : world) :
  send_remaining net w data t (S n) i s =
  let s1 := emit (Slept t) (set_sockets (net i) s) in
  match link_of w (net i) with
  | Up => send_remaining net w data t n (S i) (emit (Sent w data) s1)
  | Failing => Raise ConnectionClosed s1
  | Down => Ok tt s1
  end.
Proof.
  cbn [send_remaining]. unfold sleep. unfold_monad. cbn.
  destruct (link_of w (net i)) eqn:E; cbn; rewrite ?E; reflexivity.
Qed.

(** The loop while the target stays open: one sleep and one send a round. *)
Lemma send_remaining_open (net : nat -> list (ws * link)) (w : ws)
      (data : Msg) (t : Q) (n i : nat) (s : world) :
  (forall j, i <= j -> link_of w (net j) = Up) ->
  exists s',
    send_remaining net w data t n i s = Ok tt s' /\
    trace s' = trace s ++ pulse w data t n /\
    client_timers s' = client_timers s.
Proof.
  revert i s. induction n as [|n IH]; intros i s Hup.
  - exists s. simpl. now rewrite app_nil_r.
  - rewrite send_remaining_cons. cbv zeta. rewrite (Hup i (le_n i)).
    destruct (IH (S i) (emit (Sent w data)
                             (emit (Slept t) (set_sockets (net i) s))))
      as (s' & -> & Htr & Htm).
    { intros j Hj. apply Hup. lia. }
    exists s'. split; [reflexivity|]. split.
    + rewrite Htr. simpl. now rewrite <- !app_assoc.
    + now rewrite Htm.
Qed.

(** The loop when the target is open for the next [m] rounds and closed at
    the one after: [m] sends, then a last sleep, then a quiet exit. *)
Lemma send_remaining_closing (net : nat -> list (ws * link)) (w : ws)
      (data : Msg) (t : Q) (m n i : nat) (s : world) :
  m < n ->
  (forall j, i <= j < i + m -> link_of w (net j) = Up) ->
  link_of w (net (i + m)) = Down ->
  exists s',
    send_remaining net w data t n i s = Ok tt s' /\
    trace s' = trace s ++ pulse w data t m ++ [Slept t] /\
    client_timers s' = client_timers s.
Proof.
  revert n i s. induction m as [|m IH]; intros n i s Hlt Hup Hdown.
  - destruct n as [|n]; [lia|].
    rewrite send_remaining_cons. cbv zeta. rewrite Nat.add_0_r in Hdown.
    rewrite Hdown. eexists. split; [reflexivity|]. split; reflexivity.
  - destruct n as [|n]; [lia|].
    rewrite send_remaining_cons. cbv zeta.
    rewrite (Hup i) by lia.
    destruct (IH n (S i) (emit (Sent w data)
                               (emit (Slept t) (set_sockets (net i) s))))
      as (s' & -> & Htr & Htm).
    { lia. }
    { intros j Hj. apply Hup. lia. }
    { replace (S i + m) with (i + S m) by lia. exact Hdown. }
    exists s'. split; [reflexivity|]. split.
    + rewrite Htr. simpl. now rewrite <- !app_assoc.
    + now rewrite Htm.
Qed.

Lemma drop_timer_eq (key : string) (s : world) :
  drop_timer key s = Ok tt (set_timers (Dict.del key (client_timers s)) s).
Proof.
  unfold drop_timer. unfold_monad.
  destruct (Dict.mem key (client_timers s)) eqn:E; [reflexivity|].
  apply DictFacts.mem_false in E. rewrite (del_absent _ _ E).
  now destruct s.
Qed.

Lemma finally_drop_timer {A} (c : M A) (key : string) (s : world) :
  let r := finally c (drop_timer key) s in
  raised r = raised (c s) /\
  trace (state_of r) = trace (state_of (c s)) /\
  Dict.get key (client_timers (state_of r)) = None.
Proof.
  unfold finally.
  destruct (c s) as [a s'|e s']; rewrite drop_timer_eq; simpl;
    repeat split; apply DictFacts.get_del_eq.
Qed.

Lemma skipn_app_exact {A} (l l' : list A) : skipn (length l) (l ++ l') = l'.
Proof. induction l; simpl; auto. Qed.

Lemma send_all_eq (net : nat -> list (ws * link)) (w : ws) (data : Msg)
      (N : Z) (t : Q) (s : world) :
  send_all net w data N t s =
  match link_of w (sockets s) with
  | Up => send_remaining net w data t (Z.to_nat (N - 1)) 0
                         (emit (Sent w data) s)
  | Failing => Raise ConnectionClosed s
  | Down => send_remaining net w data t (Z.to_nat (N - 1)) 0 s
  end.
Proof.
  unfold send_all. unfold_monad.
  destruct (link_of w (sockets s)) eqn:E; cbn; rewrite ?E; reflexivity.
Qed.

(** The condition of the target at the task's observation number [i]: the
    first one is made on the store the task starts in, the later ones after
    each sleep. *)
Definition observed (net : nat -> list (ws * link)) (w : ws) (s : world)
                    (i : nat) : link :=
  link_of w (match i with O => sockets s | S j => net j end).

(** C6: a delivery task started with [total_sends = N], [N >= 1].  If the
    target is open at every observation, the task sends the payload at once
    and then N - 1 more times, each after one sleep of the configured
    interval: N sends.  If the target is open at the first k < N observations
    and closed from then on, exactly k sends occur and the task ends without
    an exception; the open test precedes every send, the first included, so
    this holds for k = 0 too.  In every case the timer entry is gone when the
    task ends. *)
Theorem delivery_sends (net : nat -> list (ws * link)) (c ch : string)
        (w : ws) (data : Msg) (N : Z) (t : Q) (s : world) :
  (1 <= N)%Z ->
  let r := delay_send_msg net c w data N t ch s in
  let new := skipn (length (trace s)) (trace (state_of r)) in
  ((forall i, observed net w s i = Up) ->
   raised r = None /\
   new = Sent w data :: pulse w data t (Z.to_nat (N - 1)) /\
   count_sent w new = Z.to_nat N)
  /\
  (forall k, (Z.of_nat k < N)%Z ->
             (forall i, i < k -> observed net w s i = Up) ->
             (forall i, k <= i -> observed net w s i = Down) ->
             raised r = None /\ count_sent w new = k)
  /\
  Dict.get (timer_key_of c ch) (client_timers (state_of r)) = None.
Proof.
  intros HN r new.
  destruct (finally_drop_timer (send_all net w data N t) (timer_key_of c ch) s)
    as (Hr & Ht & Hk).
  fold (delay_send_msg net c w data N t ch) in Hr, Ht, Hk. fold r in Hr, Ht, Hk.
  subst new. rewrite Hr, Ht, send_all_eq. clear Hr Ht.
  split; [|split; [|exact Hk]].
  - intros Hup.
    assert (H0 : link_of w (sockets s) = Up) by apply (Hup 0).
    rewrite H0.
    destruct (@send_remaining_open net w data t (Z.to_nat (N - 1)) 0
                (emit (Sent w data) s)) as (s' & -> & Htr & _).
    { intros j _. apply (Hup (S j)). }
    simpl. rewrite Htr. simpl. rewrite <- app_assoc, skipn_app_exact.
    repeat split; auto.
    change (Sent w data :: pulse w data t (Z.to_nat (N - 1)))
      with ([Sent w data] ++ pulse w data t (Z.to_nat (N - 1))).
    rewrite count_sent_app, count_sent_pulse.
    unfold count_sent. simpl. rewrite Nat.eqb_refl. simpl. lia.
  - intros k Hlt Hup Hdown. destruct k as [|k].
    + assert (H0 : link_of w (sockets s) = Down) by apply (Hdown 0), le_n.
      rewrite H0.
      destruct (Z.to_nat (N - 1)) as [|n] eqn:En.
      * simpl. split; [reflexivity|].
        rewrite <- (app_nil_r (trace s)) at 2. now rewrite skipn_app_exact.
      * destruct (@send_remaining_closing net w data t 0 (S n) 0 s)
          as (s' & -> & Htr & _); [lia|intros j Hj; lia| |].
        { apply (Hdown 1). lia. }
        simpl. rewrite Htr. simpl. now rewrite skipn_app_exact.
    + assert (H0 : link_of w (sockets s) = Up) by (apply (Hup 0); lia).
      rewrite H0.
      destruct (@send_remaining_closing net w data t k (Z.to_nat (N - 1)) 0
                  (emit (Sent w data) s))
        as (s' & -> & Htr & _).
      { lia. }
      { intros j Hj. apply (Hup (S j)). lia. }
      { apply (Hdown (S k)), le_n. }
      simpl. rewrite Htr. simpl. rewrite <- app_assoc, skipn_app_exact.
      split; [reflexivity|].
      change ([Sent w data] ++ pulse w data t k ++ [Slept t])
        with ([Sent w data] ++ (pulse w data t k ++ [Slept t])).
      rewrite !count_sent_app, count_sent_pulse.
      unfold count_sent. simpl. rewrite Nat.eqb_refl. simpl. lia.
Qed.

Definition pulse_world : world :=
  mkWorld [("A1", 1); ("B1", 2)] [("A1", "B1"); ("B1", "A1")]
          [("A1-pulse", 7)] [(1, Up); (2, Up)] [] [].

Definition pulse_data : Msg := mkMsg "msg" "A1" "B1" "pulse-A:[0A0A0A0A]".

(** The target stays open. *)
Definition steady_net (i : nat) : list (ws * link) := [(1, Up); (2, Up)].

(** The target is found closed at the third observation. *)
Definition closing_net (i : nat) : list (ws * link) :=
  match i with
  | O => [(1, Up); (2, Up)]
  | S _ => [(1, Up); (2, Down)]
  end.

Lemma delivery_sends_witness :
  (raised (delay_send_msg steady_net "A1" 2 pulse_data 3 (1 # 2) "pulse"
                          pulse_world) = None /\
   skipn (length (trace pulse_world))
         (trace (state_of (delay_send_msg steady_net "A1" 2 pulse_data 3
                                          (1 # 2) "pulse" pulse_world)))
   = Sent 2 pulse_data :: pulse 2 pulse_data (1 # 2) (Z.to_nat (3 - 1)) /\
   count_sent 2
     (skipn (length (trace pulse_world))
            (trace (state_of (delay_send_msg steady_net "A1" 2 pulse_data 3
                                             (1 # 2) "pulse" pulse_world))))
   = Z.to_nat 3)
  /\
  (raised (delay_send_msg closing_net "A1" 2 pulse_data 5 (1 # 2) "pulse"
                          pulse_world) = None /\
   count_sent 2
     (skipn (length (trace pulse_world))
            (trace (state_of (delay_send_msg closing_net "A1" 2 pulse_data 5
                                             (1 # 2) "pulse" pulse_world))))
   = 2).
Proof.
  split.
  - apply (@delivery_sends steady_net "A1" "pulse" 2 pulse_data 3 (1 # 2)
                           pulse_world); [lia|].
    intros [|i]; reflexivity.
  - apply (@delivery_sends closing_net "A1" "pulse" 2 pulse_data 5 (1 # 2)
                           pulse_world); [lia|lia| |].
    + intros [|[|i]] Hi; [reflexivity|reflexivity|lia].
    + intros [|[|i]] Hi; [lia|lia|reflexivity].
Defined.

(** The first part of claim C6 as it is worded, for a given [total_sends]:
    with the target open throughout, the number of sends is [total_sends]. *)
Definition sends_exactly (N : Z) : Prop :=
  forall net c ch w data t s,
    (forall i, observed net w s i = Up) ->
    count_sent w (skipn (length (trace s))
                        (trace (state_of (delay_send_msg net c w data N t ch s))))
    = Z.to_nat N.

(** C6, counterexample: the first copy is sent before the count is looked at,
    so a task started with [total_sends = 0] and an open target sends once. *)
Lemma zero_total_sends_sends_once :
  skipn (length (trace pulse_world))
        (trace (state_of (delay_send_msg steady_net "A1" 2 pulse_data 0 (1 # 2)
                                         "pulse" pulse_world)))
  = [Sent 2 pulse_data]
  /\ ~ sends_exactly 0.
Proof.
  split; [reflexivity|].
  intros H.
  specialize (H steady_net "A1" "pulse" 2 pulse_data (1 # 2)%Q pulse_world).
  assert (Hup : forall i, observed steady_net 2 pulse_world i = Up)
    by (intros [|i]; reflexivity).
  specialize (H Hup). vm_compute in H. discriminate H.
Qed.

(** * More of the program *)

(** ** What handling one frame can and cannot do *)

(** The parts of the store that no received frame touches *)
Definition same_frame (s s' : world) : Prop :=
  client_connections s' = client_connections s /\
  client_timers s' = client_timers s /\
  sockets s' = sockets s /\
  finished s' = finished s.

Lemma same_frame_refl (s : world) : same_frame s s.
Proof. now repeat split. Qed.

Lemma same_frame_trans (s1 s2 s3 : world) :
  same_frame s1 s2 -> same_frame s2 s3 -> same_frame s1 s3.
Proof.
  intros (A1 & B1 & C1 & D1) (A2 & B2 & C2 & D2).
  repeat split; congruence.
Qed.

Lemma ws_send_frame (w : ws) (m : Msg) (s : world) :
  same_frame s (state_of (ws_send w m s)).
Proof.
  unfold ws_send. destruct (link_of w (sockets s)); now repeat split.
Qed.

Lemma handle_bind_frame (w : ws) (c t : string) (s : world) :
  same_frame s (state_of (handle_bind w c t s)).
Proof.
  unfold handle_bind. unfold_monad. cbn.
  destruct (Dict.mem t (client_connections s)); cbn;
    [|apply ws_send_frame].
  destruct (Dict.mem c (binding_relations s) || in_values t (binding_relations s));
    [apply ws_send_frame|].
  cbn. destruct (Dict.get c (client_connections s)) as [wc|];
    [|now repeat split].
  cbn. destruct (link_of wc (sockets s)); cbn; try now repeat split.
  destruct (Dict.get t (client_connections s)) as [wt|];
    [|now repeat split].
  cbn. destruct (link_of wt (sockets s)); now repeat split.
Qed.

Lemma handle_other_frame (w : ws) (ty c t body : string) (s : world) :
  same_frame s (state_of (handle_other w ty c t body s)).
Proof.
  unfold handle_other. unfold_monad.
  destruct (negb (fst (validate_relation c t w s))); [apply ws_send_frame|].
  destruct (Dict.get t (client_connections s)) as [wt|];
    [|now repeat split].
  destruct (link_of wt (sockets s)); now repeat split.
Qed.

(** The [try] part of one iteration *)
Definition frame_body (w : ws) (ty cid tid msg : option string) : M unit :=
  match ty, cid, tid, msg with
  | Some type_, Some client_id, Some target_id, Some message =>
      if String.eqb type_ "bind" then handle_bind w client_id target_id
      else handle_other w type_ client_id target_id message
  | _, _, _, _ => ws_send w (mkMsg "error" "" "" "403")
  end.

Lemma on_message_obj (w : ws) (ty cid tid msg : option string) :
  on_message w (Obj ty cid tid msg)
  = try_except (frame_body w ty cid tid msg)
      (fun _ => ws_send w (mkMsg "error" (or_empty cid) (or_empty tid) "500")).
Proof. reflexivity. Qed.

Lemma frame_body_frame (w : ws) (ty cid tid msg : option string) (s : world) :
  same_frame s (state_of (frame_body w ty cid tid msg s)).
Proof.
  unfold frame_body.
  destruct ty as [ty|], cid as [c|], tid as [t|], msg as [body|];
    try apply ws_send_frame.
  destruct (String.eqb ty "bind");
    [apply handle_bind_frame|apply handle_other_frame].
Qed.

(** X1: handling a frame never adds or removes a registry entry, never
    touches a timer, and never opens or closes a transport: whatever the
    frame and however its handling ends, only the binding map and the trace
    can differ afterwards. *)
Theorem on_message_keeps_registry (w : ws) (fr : frame) (s : world) :
  same_frame s (state_of (on_message w fr s)).
Proof.
  destruct fr as [|ty cid tid msg]; [apply ws_send_frame|].
  rewrite on_message_obj. unfold try_except.
  pose proof (frame_body_frame w ty cid tid msg s) as H.
  destruct (frame_body w ty cid tid msg s) as [[] s'|e s']; [exact H|].
  eapply same_frame_trans; [exact H|apply ws_send_frame].
Qed.

Lemma on_message_ok_if_up (w : ws) (fr : frame) (s : world) :
  link_of w (sockets s) = Up ->
  exists s', on_message w fr s = Ok tt s'.
Proof.
  intros Hw. destruct fr as [|ty cid tid msg].
  - unfold on_message, ws_send. rewrite Hw. eauto.
  - rewrite on_message_obj. unfold try_except.
    pose proof (frame_body_frame w ty cid tid msg s) as (_ & _ & Hs & _).
    destruct (frame_body w ty cid tid msg s) as [[] s'|e s']; [eauto|].
    cbn in Hs. unfold ws_send. rewrite Hs, Hw. eauto.
Qed.

(** X2: while the sender's transport accepts sends, no frame of the wire
    schema (text that [json.loads] refuses with [JSONDecodeError], or a JSON
    object whose present fields are strings) ends the read loop: invalid
    JSON, fields missing, unknown identifiers, a dead target or an internal
    [KeyError] are all answered, and the iteration completes. *)
Theorem on_message_completes (w : ws) (fr : frame) (s : world) :
  link_of w (sockets s) = Up ->
  exists s', on_message w fr s = Ok tt s'.
Proof. apply on_message_ok_if_up. Qed.

Lemma on_message_completes_witness :
  exists s', on_message 3 (bind_frame "X0" "B1" "targetId") unbound_world
             = Ok tt s'.
Proof.
  apply (@on_message_completes 3 (bind_frame "X0" "B1" "targetId")
                               unbound_world).
  reflexivity.
Defined.

(** X3: on a frame of the wire schema (text that [json.loads] refuses with
    [JSONDecodeError], or a JSON object whose present fields are strings),
    the only exception that leaves an iteration of the read loop is
    [ConnectionClosed], and it does so only when the sender's own transport
    refuses the answer. *)
Theorem on_message_escape (w : ws) (fr : frame) (s s' : world) (e : exn) :
  on_message w fr s = Raise e s' ->
  e = ConnectionClosed /\ link_of w (sockets s) <> Up.
Proof.
  intros H. split.
  - destruct fr as [|ty cid tid msg].
    + unfold on_message, ws_send in H.
      destruct (link_of w (sockets s)); congruence.
    + rewrite on_message_obj in H. unfold try_except in H.
      destruct (frame_body w ty cid tid msg s) as [[] s1|e1 s1];
        [discriminate|].
      unfold ws_send in H. destruct (link_of w (sockets s1)); congruence.
  - intros Hup. destruct (on_message_ok_if_up w fr s Hup) as [s1 Hok].
    congruence.
Qed.

Lemma on_message_escape_witness :
  ConnectionClosed = ConnectionClosed /\
  link_of 1 (sockets failing_partner_world) <> Up.
Proof.
  apply (@on_message_escape 1 NotJson failing_partner_world
                            failing_partner_world ConnectionClosed).
  reflexivity.
Defined.

(** A frame answered as malformed: text on which [json.loads] raises
    [JSONDecodeError], or a JSON object that lacks one of the four fields *)
Definition malformed (fr : frame) : bool :=
  match fr with
  | Obj (Some _) (Some _) (Some _) (Some _) => false
  | _ => true
  end.

(** X4: a text frame on which [json.loads] raises [JSONDecodeError], and a
    JSON object that lacks one of the four fields (those it has being
    strings), are answered error/403 with empty identifiers; nothing else in
    the store changes and the handler's [client_id] is left as it was. *)
Theorem malformed_frame_403 (w : ws) (fr : frame) (c : string) (s : world) :
  malformed fr = true ->
  link_of w (sockets s) = Up ->
  on_message w fr s = Ok tt (emit (Sent w (mkMsg "error" "" "" "403")) s) /\
  client_id_after c fr = c.
Proof.
  intros Hm Hw.
  assert (Hsend : ws_send w (mkMsg "error" "" "" "403") s
                  = Ok tt (emit (Sent w (mkMsg "error" "" "" "403")) s))
    by (unfold ws_send; now rewrite Hw).
  destruct fr as [|[ty|] [cid|] [tid|] [msg|]]; try discriminate Hm;
    (split; [|reflexivity]);
    try exact Hsend;
    rewrite on_message_obj; unfold try_except, frame_body; now rewrite Hsend.
Qed.

Lemma malformed_frame_403_witness :
  on_message 1 (Obj (Some "bind") (Some "A1") None (Some "x")) relay_world
  = Ok tt (emit (Sent 1 (mkMsg "error" "" "" "403")) relay_world) /\
  client_id_after "A1" (Obj (Some "bind") (Some "A1") None (Some "x")) = "A1".
Proof.
  apply (@malformed_frame_403 1 (Obj (Some "bind") (Some "A1") None (Some "x"))
                              "A1" relay_world); reflexivity.
Defined.

(** The store with the binding [c <-> t] recorded *)
Definition bound (c t : string) (s : world) : world :=
  set_bindings (Dict.set t c (Dict.set c t (binding_relations s))) s.

Lemma handle_bind_records (w wc : ws) (c t : string) (s : world) :
  Dict.get c (client_connections s) = Some wc ->
  Dict.mem t (client_connections s) = true ->
  Dict.mem c (binding_relations s) = false ->
  in_values t (binding_relations s) = false ->
  link_of wc (sockets s) = Up ->
  handle_bind w c t s =
  bind (connection t)
       (fun wt => ws_send wt (mkMsg "bind" c t "200"))
       (emit (Sent wc (mkMsg "bind" c t "200")) (bound c t s)).
Proof.
  intros Hc Ht Hbc Hbt Hup. unfold handle_bind, bound. unfold_monad.
  cbv beta. rewrite Ht. cbn [negb]. cbv beta. rewrite Hbc, Hbt.
  cbn [orb client_connections set_bindings sockets binding_relations].
  rewrite Hc. cbn [client_connections set_bindings sockets binding_relations].
  now rewrite Hup.
Qed.

Lemma on_bind_frame (w : ws) (c t body : string) :
  on_message w (bind_frame c t body)
  = try_except (handle_bind w c t)
      (fun _ => ws_send w (mkMsg "error" c t "500")).
Proof. reflexivity. Qed.

(** X5: a bind request for a registered origin and a registered target,
    neither of them bound, with both transports accepting sends: the binding
    is recorded in both directions and origin and target are each sent
    bind/200, in that order.  The sender need not be either of them. *)
Theorem bind_success (w wc wt : ws) (c t body : string) (s : world) :
  Dict.get c (client_connections s) = Some wc ->
  Dict.get t (client_connections s) = Some wt ->
  Dict.mem c (binding_relations s) = false ->
  in_values t (binding_relations s) = false ->
  link_of wc (sockets s) = Up ->
  link_of wt (sockets s) = Up ->
  let ok := mkMsg "bind" c t "200" in
  on_message w (bind_frame c t body) s
  = Ok tt (emit (Sent wt ok) (emit (Sent wc ok) (bound c t s))) /\
  Dict.get c (binding_relations (bound c t s)) = Some t /\
  Dict.get t (binding_relations (bound c t s)) = Some c.
Proof.
  intros Hc Ht Hbc Hbt Hupc Hupt ok.
  assert (Hm : Dict.mem t (client_connections s) = true)
    by (unfold Dict.mem; now rewrite Ht).
  split.
  - rewrite on_bind_frame. unfold try_except.
    rewrite (@handle_bind_records w wc c t s Hc Hm Hbc Hbt Hupc).
    unfold_monad. cbn. rewrite Ht. cbn. now rewrite Hupt.
  - unfold bound. cbn. split.
    + destruct (String.eqb_spec t c) as [->|Hne].
      * apply DictFacts.get_set_eq.
      * rewrite DictFacts.get_set_ne by exact Hne. apply DictFacts.get_set_eq.
    + apply DictFacts.get_set_eq.
Qed.

Lemma bind_success_witness :
  on_message 3 (bind_frame "A1" "B1" "DGLAB") unbound_world
  = Ok tt (emit (Sent 2 (mkMsg "bind" "A1" "B1" "200"))
             (emit (Sent 1 (mkMsg "bind" "A1" "B1" "200"))
                (bound "A1" "B1" unbound_world))) /\
  Dict.get "A1" (binding_relations (bound "A1" "B1" unbound_world)) = Some "B1" /\
  Dict.get "B1" (binding_relations (bound "A1" "B1" unbound_world)) = Some "A1".
Proof.
  apply (@bind_success 3 1 2 "A1" "B1" "DGLAB" unbound_world); reflexivity.
Defined.

(** X6: the binding is stored before anyone is told.  When the target's
    transport refuses its bind/200, the origin has already been sent 200, the
    sender is then sent error/500, and the binding stays recorded. *)
Theorem bind_kept_when_target_unreachable
        (w wc wt : ws) (c t body : string) (s : world) :
  Dict.get c (client_connections s) = Some wc ->
  Dict.get t (client_connections s) = Some wt ->
  Dict.mem c (binding_relations s) = false ->
  in_values t (binding_relations s) = false ->
  link_of wc (sockets s) = Up ->
  link_of wt (sockets s) <> Up ->
  link_of w (sockets s) = Up ->
  on_message w (bind_frame c t body) s
  = Ok tt (emit (Sent w (mkMsg "error" c t "500"))
             (emit (Sent wc (mkMsg "bind" c t "200")) (bound c t s))).
Proof.
  intros Hc Ht Hbc Hbt Hupc Hdown Hw.
  assert (Hm : Dict.mem t (client_connections s) = true)
    by (unfold Dict.mem; now rewrite Ht).
  rewrite on_bind_frame. unfold try_except.
  rewrite (@handle_bind_records w wc c t s Hc Hm Hbc Hbt Hupc).
  unfold_monad. cbn. rewrite Ht. cbn.
  destruct (link_of wt (sockets s)); [contradiction| |];
    cbn; now rewrite Hw.
Qed.

Definition target_down_world : world :=
  mkWorld [("A1", 1); ("B1", 2); ("C1", 3)] [] []
          [(1, Up); (2, Down); (3, Up)] [] [].

Lemma bind_kept_when_target_unreachable_witness :
  on_message 1 (bind_frame "A1" "B1" "DGLAB") target_down_world
  = Ok tt (emit (Sent 1 (mkMsg "error" "A1" "B1" "500"))
             (emit (Sent 1 (mkMsg "bind" "A1" "B1" "200"))
                (bound "A1" "B1" target_down_world))).
Proof.
  apply (@bind_kept_when_target_unreachable 1 1 2 "A1" "B1" "DGLAB"
                                            target_down_world);
    try reflexivity.
  discriminate.
Defined.

(** X7: forwarding to a partner whose connection is still registered but
    whose transport refuses the send: nothing reaches the target, the
    exception is caught, and the sender is answered error/500. *)
Theorem forward_to_dead_target (s : world) (w wc wt : ws) (m : Msg) :
  m_type m <> "bind" ->
  Dict.get (m_clientId m) (client_connections s) = Some wc ->
  Dict.get (m_targetId m) (client_connections s) = Some wt ->
  wc = w \/ wt = w ->
  Dict.get (m_clientId m) (binding_relations s) = Some (m_targetId m) ->
  link_of wt (sockets s) <> Up ->
  link_of w (sockets s) = Up ->
  on_message w (frame_of m) s
  = Ok tt (emit (Sent w (mkMsg "error" (m_clientId m) (m_targetId m) "500")) s).
Proof.
  intros Hty Hc Ht Hw Hb Hdown Hup.
  assert (Hv : fst (validate_relation (m_clientId m) (m_targetId m) w s) = true)
    by (apply validate_relation_ok; eauto 8).
  unfold frame_of. rewrite on_message_obj. unfold try_except, frame_body.
  rewrite (not_bind Hty). unfold handle_other. unfold_monad.
  rewrite Hv. cbn. rewrite Ht.
  destruct (link_of wt (sockets s)); [contradiction| |]; cbn; now rewrite Hup.
Qed.

Definition partner_down_world : world :=
  mkWorld [("A1", 1); ("B1", 2)] [("A1", "B1"); ("B1", "A1")] []
          [(1, Up); (2, Down)] [] [].

Lemma forward_to_dead_target_witness :
  on_message 1 (frame_of (mkMsg "msg" "A1" "B1" "x")) partner_down_world
  = Ok tt (emit (Sent 1 (mkMsg "error" "A1" "B1" "500")) partner_down_world).
Proof.
  apply (@forward_to_dead_target partner_down_world 1 1 2
                                 (mkMsg "msg" "A1" "B1" "x"));
    try reflexivity.
  - cbn. discriminate.
  - left. reflexivity.
  - discriminate.
Defined.

(** ** The [finally] block: registry and timers *)

Lemma teardown_binding_frame (c : string) (s : world) :
  client_connections (state_of (teardown_binding c s)) = client_connections s /\
  client_timers (state_of (teardown_binding c s)) = client_timers s.
Proof.
  rewrite teardown_binding_eq.
  destruct (Dict.get c (binding_relations s)) as [p|]; [|now split].
  destruct (Dict.get p (client_connections s)) as [wp|]; [|now split].
  destruct (link_of wp (sockets s)); now split.
Qed.

(** X8: whatever the store and however the cleanup ends, the registry
    afterwards is the registry before without the entry of [client_id]: no
    other connection is unregistered, none is added. *)
Theorem cleanup_registry (c : string) (s : world) :
  client_connections (state_of (cleanup c s))
  = Dict.del c (client_connections s).
Proof.
  rewrite cleanup_after_removal.
  set (s1 := set_connections (Dict.del c (client_connections s)) s).
  unfold bind.
  destruct (teardown_binding_frame c s1) as [Hc _].
  destruct (teardown_binding c s1) as [[] s2|e s2]; [|exact Hc].
  destruct (cancel_timers_of_ok c s2) as (s3 & -> & Hk & _).
  cbn in *. now rewrite Hk, Hc.
Qed.

Lemma del_set_fresh {V} (k : string) (v : V) (d : Dict.t V) :
  Dict.get k d = None -> Dict.del k (Dict.set k v d) = d.
Proof.
  induction d as [|[k0 v0] r IH]; cbn.
  - now rewrite String.eqb_refl.
  - destruct (String.eqb k k0) eqn:E; [discriminate|].
    intros H. cbn. rewrite E. now rewrite IH.
Qed.

(** A frame that leaves the handler's [client_id] equal to [c]: a malformed
    one, or one whose [clientId] field is [c] *)
Definition keeps_id (c : string) (fr : frame) : Prop :=
  client_id_after c fr = c.

Lemma read_loop_keeps (w : ws) (c : string) (frames : list frame) (s : world) :
  Forall (keeps_id c) frames ->
  fst (read_loop w c frames s) = c /\
  client_connections (state_of (snd (read_loop w c frames s)))
  = client_connections s.
Proof.
  intros H. revert s. induction H as [|fr rest Hfr _ IH]; intros s.
  - now split.
  - cbn [read_loop]. unfold keeps_id in Hfr. rewrite Hfr.
    destruct (on_message_keeps_registry w fr s) as (Hreg & _).
    destruct (on_message w fr s) as [[] s'|e s'].
    + destruct (IH s') as [H1 H2]. split; [exact H1|]. now rewrite H2.
    + now split.
Qed.

(** X9: a connection all of whose well-formed frames carry its own
    identifier as [clientId] leaves the registry as it found it: when its
    handler ends, however it ends, the identifier drawn on accept is
    unregistered and every other entry is as before. *)
Theorem own_id_connection_unregisters
        (w : ws) (uuid4 : string) (frames : list frame) (s : world) :
  link_of w (sockets s) = Up ->
  Dict.get uuid4 (client_connections s) = None ->
  Forall (keeps_id uuid4) frames ->
  client_connections (state_of (handle_client w uuid4 frames s))
  = client_connections s.
Proof.
  intros Hw Hfresh Hown. unfold handle_client, accept. unfold_monad.
  cbn. rewrite Hw.
  set (s1 := emit _ _).
  destruct (read_loop_keeps w (c:=uuid4) (frames:=frames) s1 Hown) as [H1 H2].
  destruct (read_loop w uuid4 frames s1) as [c r]. cbn in H1, H2. subst c.
  rewrite end_of_loop_state, cleanup_registry, H2.
  subst s1. cbn. now apply del_set_fresh.
Qed.

Lemma own_id_connection_unregisters_witness :
  client_connections
    (state_of (handle_client 2 "B1"
                 [frame_of (mkMsg "bind" "B1" "A1" "x"); NotJson;
                  frame_of (mkMsg "msg" "B1" "A1" "y")]
                 (mkWorld [("A1", 1)] [] [] [(1, Up); (2, Up)] [] [])))
  = [("A1", 1)].
Proof.
  apply (@own_id_connection_unregisters 2 "B1"
           [frame_of (mkMsg "bind" "B1" "A1" "x"); NotJson;
            frame_of (mkMsg "msg" "B1" "A1" "y")]
           (mkWorld [("A1", 1)] [] [] [(1, Up); (2, Up)] [] [])).
  - reflexivity.
  - reflexivity.
  - repeat constructor.
Defined.

(** The second hyphen-separated field of a key, [key.split("-")[1]] *)
Definition second_field (key : string) : option string :=
  nth_error (split_on hyphen key) 1.

(** Whether the pass over the snapshot [ks] asks for the key [k]: some key of
    the snapshot starts with [client_id + "-"] and [k] is [client_id], a
    hyphen, and that key's second field. *)
Definition targeted (c : string) (ks : list string) (k : string) : bool :=
  existsb (fun key =>
             startswith key (String.append c "-") &&
             match second_field key with
             | Some ch => String.eqb k (timer_key_of c ch)
             | None => false
             end) ks.

Lemma cancel_timer_timers (c ch : string) (s : world) :
  client_timers (state_of (cancel_timer c ch s))
  = Dict.del (timer_key_of c ch) (client_timers s).
Proof.
  unfold cancel_timer. unfold_monad.
  destruct (Dict.get (timer_key_of c ch) (client_timers s)) as [t|] eqn:E.
  - now destruct (negb (existsb (Nat.eqb t) (finished s))).
  - cbn. now rewrite del_absent.
Qed.

Lemma get_del (k k' : string) {V} (d : Dict.t V) :
  Dict.get k' (Dict.del k d)
  = if String.eqb k' k then None else Dict.get k' d.
Proof.
  destruct (String.eqb_spec k' k) as [->|Hne].
  - apply DictFacts.get_del_eq.
  - apply DictFacts.get_del_ne. congruence.
Qed.

(** The timer table after the pass, key by key. *)
Lemma cancel_owned_timers (c : string) (ks : list string) (s : world)
      (k : string) :
  Dict.get k (client_timers (state_of (cancel_owned c ks s)))
  = if targeted c ks k then None else Dict.get k (client_timers s).
Proof.
  revert s. induction ks as [|key rest IH]; intros s; [reflexivity|].
  cbn [cancel_owned targeted existsb]. fold (targeted c rest k).
  unfold bind.
  destruct (startswith key (String.append c "-")) eqn:P; cbn [andb].
  - unfold second_field.
    destruct (split_on_second _ _ P) as [ch Hch]. rewrite Hch.
    destruct (cancel_timer_ok c ch s) as (s1 & H1 & _).
    pose proof (cancel_timer_timers c ch s) as Ht. rewrite H1 in *.
    cbn in Ht. rewrite IH, Ht, get_del.
    now destruct (String.eqb k (timer_key_of c ch)), (targeted c rest k).
  - unfold ret. apply IH.
Qed.

Lemma cleanup_timers (c : string) (s s' : world) (k : string) :
  cleanup c s = Ok tt s' ->
  Dict.get k (client_timers s')
  = if targeted c (Dict.keys (client_timers s)) k then None
    else Dict.get k (client_timers s).
Proof.
  rewrite cleanup_after_removal.
  set (s1 := set_connections (Dict.del c (client_connections s)) s).
  unfold bind. intros H.
  destruct (teardown_binding_frame c s1) as [_ Ht].
  destruct (teardown_binding c s1) as [[] s2|e s2]; [|discriminate].
  cbn in Ht. unfold cancel_timers_of, bind, gets in H.
  pose proof (cancel_owned_timers c (Dict.keys (client_timers s2)) s2 k) as Hk.
  rewrite H in Hk. cbn in Hk. now rewrite Hk, Ht.
Qed.

(** *** Strings: prefixes and fields *)

Definition no_hyphen (s : string) : Prop :=
  forall a, In a (list_ascii_of_string s) -> a <> hyphen.

Lemma no_hyphen_cons (a : ascii) (s : string) :
  no_hyphen (String a s) -> a <> hyphen /\ no_hyphen s.
Proof.
  intros H. split.
  - apply H. now left.
  - intros b Hb. apply H. now right.
Qed.

Lemma split_on_no_hyphen (s : string) :
  no_hyphen s -> split_on hyphen s = [s].
Proof.
  induction s as [|a s IH]; intros H; [reflexivity|].
  apply no_hyphen_cons in H. destruct H as [Ha Hs].
  cbn [split_on]. apply Ascii.eqb_neq in Ha. rewrite Ha.
  now rewrite (IH Hs).
Qed.

Lemma split_on_key (c x : string) :
  no_hyphen c ->
  split_on hyphen (timer_key_of c x) = c :: split_on hyphen x.
Proof.
  unfold timer_key_of. induction c as [|a c IH]; intros H.
  - cbn. reflexivity.
  - apply no_hyphen_cons in H. destruct H as [Ha Hc].
    change (String.append (String a c) (String.append "-" x))
      with (String a (String.append c (String.append "-" x))).
    cbn [split_on]. apply Ascii.eqb_neq in Ha. rewrite Ha.
    now rewrite (IH Hc).
Qed.

Lemma startswith_key (c x : string) :
  startswith (timer_key_of c x) (String.append c "-") = true.
Proof.
  unfold startswith, timer_key_of. induction c as [|a c IH].
  - cbn. destruct (ascii_dec "-" "-"); [|congruence]. now destruct x.
  - change (String.prefix (String a (String.append c "-"))
                          (String a (String.append c (String.append "-" x)))
            = true).
    cbn [String.prefix]. destruct (ascii_dec a a); [exact IH|congruence].
Qed.

(** X10: for an identifier and a channel without hyphens, the cleanup that
    completes cancels the timer: whatever else the table holds, the entry
    [client_id-channel] is gone afterwards. *)
Theorem cleanup_cancels_plain_timer (c ch : string) (t : task) (s s' : world) :
  no_hyphen c ->
  no_hyphen ch ->
  Dict.get (timer_key_of c ch) (client_timers s) = Some t ->
  cleanup c s = Ok tt s' ->
  Dict.get (timer_key_of c ch) (client_timers s') = None.
Proof.
  intros Hc Hch Hin Hok.
  rewrite (@cleanup_timers c s s' _ Hok).
  assert (Ht : targeted c (Dict.keys (client_timers s)) (timer_key_of c ch)
               = true).
  { unfold targeted. apply existsb_exists. exists (timer_key_of c ch).
    split.
    - clear Hok. revert Hin. generalize (client_timers s) as d.
      induction d as [|[k0 v0] r IH]; cbn; [discriminate|].
      destruct (String.eqb_spec (timer_key_of c ch) k0); auto.
    - rewrite startswith_key. cbn [andb]. unfold second_field.
      rewrite (@split_on_key c ch Hc), (@split_on_no_hyphen ch Hch). cbn.
      apply String.eqb_refl. }
  now rewrite Ht.
Qed.

Definition timers_world : world :=
  mkWorld [("A1", 1)] [] [("A1-pulse", 7); ("B1-pulse", 8)] [(1, Down)] []
          [].

Lemma cleanup_cancels_plain_timer_witness :
  Dict.get (timer_key_of "A1" "pulse")
           (client_timers (state_of (cleanup "A1" timers_world))) = None.
Proof.
  apply (@cleanup_cancels_plain_timer "A1" "pulse" 7 timers_world
           (state_of (cleanup "A1" timers_world))).
  - intros a [<-|[<-|[]]]; discriminate.
  - intros a [<-|[<-|[<-|[<-|[<-|[]]]]]]; discriminate.
  - reflexivity.
  - reflexivity.
Defined.

(** The timer table after the cleanup, however it ends: untouched when the
    partner's notification raised, and as the pass leaves it otherwise. *)
Lemma cleanup_timers_any (c : string) (s : world) (k : string) :
  targeted c (Dict.keys (client_timers s)) k = false ->
  Dict.get k (client_timers (state_of (cleanup c s)))
  = Dict.get k (client_timers s).
Proof.
  intros Hk. destruct (cleanup c s) as [[] s'|e s'] eqn:E.
  - cbn. rewrite (@cleanup_timers c s s' k E). now rewrite Hk.
  - rewrite cleanup_after_removal in E.
    set (s1 := set_connections (Dict.del c (client_connections s)) s) in E.
    unfold bind in E.
    destruct (teardown_binding_frame c s1) as [_ Ht].
    destruct (teardown_binding c s1) as [[] s2|e2 s2].
    + destruct (cancel_timers_of_ok c s2) as (s3 & H3 & _). congruence.
    + injection E as _ <-. cbn in *. now rewrite Ht.
Qed.

Lemma targeted_inv (c : string) (ks : list string) (k : string) :
  targeted c ks k = true ->
  exists key ch,
    In key ks /\ startswith key (String.append c "-") = true /\
    second_field key = Some ch /\ k = timer_key_of c ch.
Proof.
  unfold targeted. intros H. apply existsb_exists in H.
  destruct H as (key & Hin & H). apply andb_true_iff in H.
  destruct H as [Hp H].
  destruct (second_field key) as [ch|] eqn:Hs; [|discriminate].
  apply String.eqb_eq in H. exists key, ch. now repeat split.
Qed.

(** X11: the cleanup of [client_id] leaves every timer whose key does not
    start with [client_id + "-"] in the table, however the cleanup ends. *)
Theorem cleanup_spares_foreign_timers (c k : string) (s : world) :
  startswith k (String.append c "-") = false ->
  Dict.get k (client_timers (state_of (cleanup c s)))
  = Dict.get k (client_timers s).
Proof.
  intros Hk. apply cleanup_timers_any.
  destruct (targeted c (Dict.keys (client_timers s)) k) eqn:T; [|reflexivity].
  apply targeted_inv in T. destruct T as (key & ch & _ & _ & _ & ->).
  now rewrite startswith_key in Hk.
Qed.

Lemma cleanup_spares_foreign_timers_witness :
  Dict.get "B1-pulse" (client_timers (state_of (cleanup "A1" timers_world)))
  = Dict.get "B1-pulse" (client_timers timers_world).
Proof.
  apply (@cleanup_spares_foreign_timers "A1" "B1-pulse" timers_world).
  reflexivity.
Defined.

Lemma prefix_append (p s : string) :
  String.prefix p s = true -> exists x, s = String.append p x.
Proof.
  revert s. induction p as [|a p IH]; intros s H.
  - exists s. reflexivity.
  - destruct s as [|b s]; [discriminate H|].
    apply prefix_cons in H. destruct H as [<- H].
    destruct (IH s H) as [x ->]. now exists x.
Qed.

Lemma append_assoc (a b c : string) :
  String.append (String.append a b) c = String.append a (String.append b c).
Proof. induction a as [|x a IH]; cbn; [reflexivity|now rewrite IH]. Qed.

Lemma second_field_cons (a : ascii) (s : string) :
  a <> hyphen -> second_field (String a s) = second_field s.
Proof.
  intros Ha. unfold second_field. cbn [split_on].
  apply Ascii.eqb_neq in Ha. rewrite Ha.
  destruct (split_on hyphen s) eqn:E; [now apply split_on_nonempty in E|].
  reflexivity.
Qed.

Lemma first_field_app (b x : string) :
  hd_error (split_on hyphen (String.append b (String.append "-" x)))
  = hd_error (split_on hyphen b).
Proof.
  induction b as [|a b IH].
  - reflexivity.
  - change (String.append (String a b) (String.append "-" x))
      with (String a (String.append b (String.append "-" x))).
    cbn [split_on]. destruct (Ascii.eqb a hyphen); [reflexivity|].
    destruct (split_on hyphen (String.append b (String.append "-" x))) eqn:E1;
      [now apply split_on_nonempty in E1|].
    destruct (split_on hyphen b) eqn:E2; [now apply split_on_nonempty in E2|].
    cbn in *. congruence.
Qed.

(** A key that extends an identifier with a hyphen in it has the
    identifier's own second field as its second field. *)
Lemma second_field_app (c f x : string) :
  second_field c = Some f ->
  second_field (String.append c (String.append "-" x)) = Some f.
Proof.
  induction c as [|a c IH]; intros H; [discriminate H|].
  change (String.append (String a c) (String.append "-" x))
    with (String a (String.append c (String.append "-" x))).
  destruct (Ascii.eqb_spec a hyphen) as [->|Ha].
  - unfold second_field in *. cbn [split_on] in *.
    unfold hyphen in *. rewrite Ascii.eqb_refl in *.
    cbn [nth_error] in *.
    change (nth_error ?l 0) with (hd_error l) in *.
    pose proof (first_field_app c x) as Hf. unfold hyphen in Hf.
    destruct (split_on "-" (String.append c (String.append "-" x)));
      destruct (split_on "-" c); cbn in *; congruence.
  - rewrite second_field_cons in * by exact Ha. now apply IH.
Qed.

Lemma timer_key_inj (c a b : string) :
  timer_key_of c a = timer_key_of c b -> a = b.
Proof.
  unfold timer_key_of. induction c as [|x c IH]; cbn; intros H.
  - now injection H.
  - injection H as H. now apply IH.
Qed.

(** X12: for an identifier with a hyphen in it, as every [uuid.uuid4()]
    string has, the pass rebuilds the key from the identifier's own second
    field, so the timer of any other channel is still in the table after the
    cleanup. *)
Theorem cleanup_misses_hyphenated_timer (c f ch : string) (s : world) :
  second_field c = Some f ->
  ch <> f ->
  Dict.get (timer_key_of c ch) (client_timers (state_of (cleanup c s)))
  = Dict.get (timer_key_of c ch) (client_timers s).
Proof.
  intros Hf Hne. apply cleanup_timers_any.
  destruct (targeted c (Dict.keys (client_timers s)) (timer_key_of c ch))
    eqn:T; [|reflexivity].
  apply targeted_inv in T. destruct T as (key & ch' & _ & Hp & Hs & Hk).
  apply prefix_append in Hp. destruct Hp as [x ->].
  rewrite append_assoc in Hs.
  rewrite (@second_field_app c f x Hf) in Hs. injection Hs as <-.
  apply timer_key_inj in Hk. contradiction.
Qed.

Definition uuid_world : world :=
  mkWorld [("0f8fad5b-d9cb-469f-a165-70867728950e", 1)] []
          [(timer_key_of "0f8fad5b-d9cb-469f-a165-70867728950e" "A", 7)]
          [(1, Down)] [] [].

Lemma cleanup_misses_hyphenated_timer_witness :
  Dict.get (timer_key_of "0f8fad5b-d9cb-469f-a165-70867728950e" "A")
    (client_timers
       (state_of (cleanup "0f8fad5b-d9cb-469f-a165-70867728950e" uuid_world)))
  = Dict.get (timer_key_of "0f8fad5b-d9cb-469f-a165-70867728950e" "A")
             (client_timers uuid_world).
Proof.
  apply (@cleanup_misses_hyphenated_timer
           "0f8fad5b-d9cb-469f-a165-70867728950e" "d9cb" "A" uuid_world).
  - reflexivity.
  - discriminate.
Defined.

(** ** Heartbeat: a failing transport *)

Lemma heartbeat_loop_app (a b : list (string * ws)) (m : Msg) (s : world) :
  heartbeat_loop (a ++ b) m s
  = bind (heartbeat_loop a m) (fun m' => heartbeat_loop b m') s.
Proof.
  revert m s. induction a as [|[c w] a IH]; intros m s; [reflexivity|].
  change (((c, w) :: a) ++ b) with ((c, w) :: (a ++ b)).
  unfold bind in *. rewrite !heartbeat_loop_cons.
  destruct (link_of w (sockets s)); cbv zeta; try apply IH. reflexivity.
Qed.

(** X14: [send_heartbeat] has no handler around its sends.  When the
    transport of a registry entry reads open but refuses the send, the round
    ends there with [ConnectionClosed]: the open entries before it have had
    their heartbeat, the entries after it get none, and the exception leaves
    the heartbeat task. *)
Theorem heartbeat_stops_at_failing
        (pre post : list (string * ws)) (c : string) (w : ws) (m : Msg)
        (s : world) :
  heartbeat_shaped m ->
  client_connections s = pre ++ (c, w) :: post ->
  (forall e, In e pre -> link_of (snd e) (sockets s) <> Failing) ->
  link_of w (sockets s) = Failing ->
  heartbeat_round m s
  = Raise ConnectionClosed
          (emit_all (map (heartbeat_for s) (filter (live s) pre)) s).
Proof.
  intros Hm Hreg Hpre Hw. unfold heartbeat_round. unfold_monad.
  rewrite Hreg. destruct (pre ++ (c, w) :: post) eqn:E;
    [now destruct pre|]. rewrite <- E. unfold Dict.items.
  pose proof (heartbeat_loop_app pre ((c, w) :: post) m s) as Happ.
  unfold bind in Happ. rewrite Happ.
  destruct (@heartbeat_loop_sends pre m s Hm Hpre) as (m' & _ & ->).
  rewrite heartbeat_loop_cons. cbn [sockets emit_all]. now rewrite Hw.
Qed.

Definition heartbeat_failing_world : world :=
  mkWorld [("A1", 1); ("B1", 2); ("C1", 3)] [("A1", "B1"); ("B1", "A1")] []
          [(1, Up); (2, Failing); (3, Up)] [] [].

Lemma heartbeat_stops_at_failing_witness :
  heartbeat_round heartbeat_init heartbeat_failing_world
  = Raise ConnectionClosed
          (emit_all [Sent 1 (mkMsg "heartbeat" "A1" "B1" "200")]
                    heartbeat_failing_world).
Proof.
  apply (@heartbeat_stops_at_failing [("A1", 1)] [("C1", 3)] "B1" 2
           heartbeat_init heartbeat_failing_world).
  - split; reflexivity.
  - reflexivity.
  - intros e [<-|[]]. discriminate.
  - reflexivity.
Defined.

(** ** More invariants of the reachable states *)

Lemma in_values_in (x : string) (b : Dict.t string) :
  in_values x b = true -> exists k, In (k, x) b.
Proof.
  unfold in_values, Dict.values. intros H. apply existsb_exists in H.
  destruct H as (v & Hin & Hv). apply String.eqb_eq in Hv. subst v.
  apply in_map_iff in Hin. destruct Hin as ([k v] & Hv & Hin).
  cbn in Hv. subst v. eauto.
Qed.

Lemma nodup_in_get {V} (k : string) (v : V) (d : Dict.t V) :
  NoDup (Dict.keys d) -> In (k, v) d -> Dict.get k d = Some v.
Proof.
  induction d as [|[k0 v0] r IH]; cbn; intros Hn Hin; [contradiction|].
  inversion Hn as [|? ? Hnin Hn']; subst.
  destruct Hin as [[= -> ->]|Hin].
  - now rewrite String.eqb_refl.
  - destruct (String.eqb_spec k k0) as [->|Hne]; [|auto].
    exfalso. apply Hnin. apply in_map_iff. now exists (k0, v).
Qed.

(** A message the heartbeat loop can send when it carries [m]: the [type]
    and [message] fields of [m], the other two rewritten *)
Definition heartbeat_of (m : Msg) (e : event) : Prop :=
  exists w c t, e = Sent w (mkMsg (m_type m) c t (m_message m)).

Lemma emit_all_app (a b : list event) (s : world) :
  emit_all b (emit_all a s) = emit_all (a ++ b) s.
Proof. unfold emit_all. cbn. now rewrite <- app_assoc. Qed.

Lemma heartbeat_loop_only_sends (items : list (string * ws)) (m : Msg)
                                (s : world) :
  exists es,
    state_of (heartbeat_loop items m s) = emit_all es s /\
    Forall (heartbeat_of m) es.
Proof.
  revert m s. induction items as [|[c w] rest IH]; intros m s.
  - exists []. cbn. now rewrite emit_all_nil.
  - rewrite heartbeat_loop_cons. destruct (link_of w (sockets s)).
    + cbv zeta.
      set (msg := mkMsg (m_type m) c
                        (or_empty (Dict.get c (binding_relations s)))
                        (m_message m)).
      destruct (IH msg (emit (Sent w msg) s)) as (es & -> & Hes).
      exists (Sent w msg :: es). split; [apply emit_all_emit|].
      constructor; [now exists w, c, (m_targetId msg)|exact Hes].
    + exists []. cbn. now rewrite emit_all_nil.
    + apply IH.
Qed.

(** X16: a heartbeat round, whether it completes or raises, changes nothing
    but the trace, and adds to it only messages with the type and body of
    the heartbeat: it never unregisters a connection, never touches a
    binding or a timer, never closes a transport. *)
Theorem heartbeat_round_only_sends (m : Msg) (s : world) :
  exists es,
    state_of (heartbeat_round m s) = emit_all es s /\
    Forall (heartbeat_of m) es.
Proof.
  unfold heartbeat_round. unfold_monad.
  destruct (client_connections s) as [|e r] eqn:E.
  - exists []. cbn. now rewrite emit_all_nil.
  - apply heartbeat_loop_only_sends.
Qed.

(** A store in which no delivery timer is registered *)
Definition no_timers (s : world) : Prop := client_timers s = [].

Lemma cleanup_no_timers (c : string) (s : world) :
  no_timers s -> no_timers (state_of (cleanup c s)).
Proof.
  unfold no_timers. intros H. rewrite cleanup_after_removal.
  set (s1 := set_connections (Dict.del c (client_connections s)) s).
  unfold bind. destruct (teardown_binding_frame c s1) as [_ Ht].
  assert (H1 : client_timers s1 = []) by exact H.
  rewrite H1 in Ht.
  destruct (teardown_binding c s1) as [[] s2|e s2]; cbn [state_of] in Ht;
    [|exact Ht].
  unfold cancel_timers_of, bind, gets. rewrite Ht. exact Ht.
Qed.

Lemma perform_no_timers (a : action) (y : system) :
  no_timers (sys_world y) -> no_timers (sys_world (perform a y)).
Proof.
  intros H. destruct y as [s l]. cbn [sys_world] in H.
  destruct a as [w u|w fr|w| |k]; cbn [perform sys_world sys_local].
  - destruct (local_of w l); [exact H|].
    unfold accept. unfold_monad. cbn.
    destruct (link_of w (sockets s)); exact H.
  - destruct (local_of w l) as [c|]; [|exact H].
    destruct (on_message_keeps_registry w fr s) as (_ & Ht & _).
    destruct (on_message w fr s) as [[] s'|e s']; cbn in Ht.
    + unfold no_timers. cbn. now rewrite Ht.
    + cbn [sys_world]. rewrite end_of_loop_state. apply cleanup_no_timers.
      unfold no_timers. cbn. now rewrite Ht.
  - destruct (local_of w l) as [c|]; [|exact H].
    cbn [sys_world]. rewrite end_of_loop_state. now apply cleanup_no_timers.
  - destruct (heartbeat_round_only_sends heartbeat_init s) as (es & -> & _).
    exact H.
  - exact H.
Qed.

(** X17: the server never starts a timed delivery.  No function of the
    program adds an entry to [client_timers], so in every reachable state the
    timer table is empty. *)
Theorem timers_never_started (y : system) :
  reachable y -> client_timers (sys_world y) = [].
Proof.
  intros [acts ->]. unfold run.
  assert (H : forall acts y, no_timers (sys_world y) ->
                             no_timers (sys_world (run_from y acts))).
  { clear acts. induction acts as [|a acts IH]; intros y Hy; [exact Hy|].
    apply IH. now apply perform_no_timers. }
  now apply H.
Qed.

Lemma timers_never_started_witness :
  client_timers (sys_world (run bound_pair)) = [].
Proof.
  apply (@timers_never_started (run bound_pair)).
  exists bound_pair. reflexivity.
Defined.

(** ** Timed delivery: a send that raises *)

(** The loop when the target accepts the next [m] sends and then reads open
    but refuses: [m] sends, a last sleep, and the exception. *)
Lemma send_remaining_failing (net : nat -> list (ws * link)) (w : ws)
      (data : Msg) (t : Q) (m n i : nat) (s : world) :
  m < n ->
  (forall j, i <= j < i + m -> link_of w (net j) = Up) ->
  link_of w (net (i + m)) = Failing ->
  exists s',
    send_remaining net w data t n i s = Raise ConnectionClosed s' /\
    trace s' = trace s ++ pulse w data t m ++ [Slept t].
Proof.
  revert n i s. induction m as [|m IH]; intros n i s Hlt Hup Hf.
  - destruct n as [|n]; [lia|].
    rewrite send_remaining_cons. cbv zeta. rewrite Nat.add_0_r in Hf.
    rewrite Hf. eexists. split; reflexivity.
  - destruct n as [|n]; [lia|].
    rewrite send_remaining_cons. cbv zeta. rewrite (Hup i) by lia.
    destruct (IH n (S i) (emit (Sent w data)
                               (emit (Slept t) (set_sockets (net i) s))))
      as (s' & -> & Htr).
    { lia. }
    { intros j Hj. apply Hup. lia. }
    { replace (S i + m) with (i + S m) by lia. exact Hf. }
    exists s'. split; [reflexivity|].
    rewrite Htr. cbn. now rewrite <- !app_assoc.
Qed.

(** X18: [delay_send_msg] does not catch a failed send.  If the target
    accepts the first [k] sends and then reads open but refuses the next one,
    the task ends with [ConnectionClosed] after exactly [k] sends; the
    [finally] clause has still removed the timer entry. *)
Theorem delivery_send_failure (net : nat -> list (ws * link)) (c ch : string)
        (w : ws) (data : Msg) (N : Z) (t : Q) (k : nat) (s : world) :
  (Z.of_nat k < N)%Z ->
  (forall i, i < k -> observed net w s i = Up) ->
  observed net w s k = Failing ->
  let r := delay_send_msg net c w data N t ch s in
  raised r = Some ConnectionClosed /\
  count_sent w (skipn (length (trace s)) (trace (state_of r))) = k /\
  Dict.get (timer_key_of c ch) (client_timers (state_of r)) = None.
Proof.
  intros Hlt Hup Hf r.
  destruct (finally_drop_timer (send_all net w data N t) (timer_key_of c ch) s)
    as (Hr & Ht & Hk).
  fold (delay_send_msg net c w data N t ch) in Hr, Ht, Hk. fold r in Hr, Ht, Hk.
  rewrite Hr, Ht, send_all_eq. clear Hr Ht.
  split; [|split; [|exact Hk]]; destruct k as [|k].
  - change (link_of w (sockets s) = Failing) in Hf. now rewrite Hf.
  - assert (H0 : link_of w (sockets s) = Up) by (apply (Hup 0); lia).
    rewrite H0.
    destruct (@send_remaining_failing net w data t k (Z.to_nat (N - 1)) 0
                (emit (Sent w data) s)) as (s' & -> & _);
      [lia|intros j Hj; apply (Hup (S j)); lia|exact Hf|reflexivity].
  - change (link_of w (sockets s) = Failing) in Hf. rewrite Hf. cbn.
    rewrite <- (app_nil_r (trace s)) at 2. now rewrite skipn_app_exact.
  - assert (H0 : link_of w (sockets s) = Up) by (apply (Hup 0); lia).
    rewrite H0.
    destruct (@send_remaining_failing net w data t k (Z.to_nat (N - 1)) 0
                (emit (Sent w data) s)) as (s' & -> & Htr);
      [lia|intros j Hj; apply (Hup (S j)); lia|exact Hf|].
    cbn. rewrite Htr. cbn. rewrite <- app_assoc, skipn_app_exact.
    change ([Sent w data] ++ pulse w data t k ++ [Slept t])
      with ([Sent w data] ++ (pulse w data t k ++ [Slept t])).
    rewrite !count_sent_app, count_sent_pulse.
    unfold count_sent. cbn. rewrite Nat.eqb_refl. cbn. lia.
Qed.

(** The target accepts two sends and refuses the third. *)
Definition failing_net (i : nat) : list (ws * link) :=
  match i with
  | O => [(1, Up); (2, Up)]
  | S _ => [(1, Up); (2, Failing)]
  end.

Lemma delivery_send_failure_witness :
  raised (delay_send_msg failing_net "A1" 2 pulse_data 5 (1 # 2) "pulse"
                         pulse_world) = Some ConnectionClosed /\
  count_sent 2
    (skipn (length (trace pulse_world))
           (trace (state_of (delay_send_msg failing_net "A1" 2 pulse_data 5
                                            (1 # 2) "pulse" pulse_world))))
  = 2 /\
  Dict.get (timer_key_of "A1" "pulse")
    (client_timers (state_of (delay_send_msg failing_net "A1" 2 pulse_data 5
                                             (1 # 2) "pulse" pulse_world)))
  = None.
Proof.
  apply (@delivery_send_failure failing_net "A1" "pulse" 2 pulse_data 5
                                (1 # 2) 2 pulse_world).
  - lia.
  - intros [|[|i]] Hi; [reflexivity|reflexivity|lia].
  - reflexivity.
Defined.

(** * The log-tailing client (Front.py)

    The client keeps two global identifiers, its own ([FrontClientId]) and
    the paired app's ([TargetAPPId]), learns both from the [bind] frames of
    the server, and sends commands once both are known.  Its file tailing,
    prompts and reconnection loop are not modelled; the QR code it writes is
    recorded as a request. *)

Module Front.

(** What [get_user_config] returns and the handler uses *)
Record config : Type := mkConfig {
  SERVER_IP : string;
  QR_CODE_PATH : string
}.

Definition WS_SERVER_PORT : string := "8765".

(** The globals, and the calls of [generate_qrcode(content, save_path)] *)
Record state : Type := mkState {
  FrontClientId : string;
  TargetAPPId : string;
  qrcodes : list (string * string)
}.

Definition start : state := mkState "" "" [].

(** Truth value of [data.get(k)]: present and not empty *)
Definition truthy (o : option string) : bool :=
  match o with
  | Some (String _ _) => true
  | _ => false
  end.

(** [data.get(k) == v] *)
Definition is_value (o : option string) (v : string) : bool :=
  match o with
  | Some x => String.eqb x v
  | None => false
  end.

Definition qr_content (cfg : config) (client_id : string) : string :=
  String.append
    "https://www.dungeon-lab.com/app-download.php#DGLAB-SOCKET#ws://"
    (String.append (SERVER_IP cfg)
       (String.append ":"
          (String.append WS_SERVER_PORT (String.append "/" client_id)))).

(** One iteration of [async for message in websocket]; a frame that is not
    JSON ends in the [except] clause and changes nothing. *)
Definition on_frame (cfg : config) (fr : frame) (st : state) : state :=
  match fr with
  | NotJson => st
  | Obj ty cid tid _ =>
      if is_value ty "bind" then
        if negb (truthy tid) && truthy cid then
          let id := or_empty cid in
          mkState id (TargetAPPId st)
                  (qrcodes st ++ [(qr_content cfg id, QR_CODE_PATH cfg)])
        else if truthy tid && is_value cid (FrontClientId st) then
          mkState (FrontClientId st) (or_empty tid) (qrcodes st)
        else st
      else if is_value ty "break" then
        mkState "" "" (qrcodes st)
      else st
  end.

Definition websocket_message_handler (cfg : config) (frames : list frame)
                                     (st : state) : state :=
  fold_left (fun st fr => on_frame cfg fr st) frames st.

Definition nonempty (s : string) : bool :=
  match s with EmptyString => false | String _ _ => true end.

(** [ws_conn.closed] *)
Definition closed (k : link) : bool :=
  match k with Down => true | _ => false end.

(** [send_command_to_app]: the value returned and the messages put on the
    connection.  [ws_conn] is [None] before the first connection; a
    connection is [closed] when its transport is [Down]. *)
Definition send_command_to_app (st : state) (ws_conn : option link)
                               (command : string) : bool * list Msg :=
  match ws_conn with
  | None => (false, [])
  | Some k =>
      if negb (nonempty (TargetAPPId st)) || negb (nonempty (FrontClientId st))
         || closed k
      then (false, [])
      else
        let message :=
          mkMsg "msg" (FrontClientId st) (TargetAPPId st) command in
        match k with
        | Up => (true, [message])
        | _ => (false, [])
        end
  end.

End Front.

Lemma nonempty_true (x : string) : x <> "" -> Front.nonempty x = true.
Proof. destruct x; [congruence|reflexivity]. Qed.

Lemma on_notice (cfg : Front.config) (st : Front.state) (F body : string) :
  F <> "" ->
  Front.on_frame cfg (frame_of (mkMsg "bind" F "" body)) st
  = Front.mkState F (Front.TargetAPPId st)
      (Front.qrcodes st
       ++ [(Front.qr_content cfg F, Front.QR_CODE_PATH cfg)]).
Proof.
  intros HF. unfold frame_of, Front.on_frame.
  cbn [m_type m_clientId m_targetId m_message Front.is_value].
  change (String.eqb "bind" "bind") with true. cbv iota.
  destruct F; [congruence|reflexivity].
Qed.

Lemma on_told (cfg : Front.config) (st : Front.state) (P status : string) :
  P <> "" ->
  Front.on_frame cfg (frame_of (mkMsg "bind" (Front.FrontClientId st) P status))
                 st
  = Front.mkState (Front.FrontClientId st) P (Front.qrcodes st).
Proof.
  intros HP. unfold frame_of, Front.on_frame.
  cbn [m_type m_clientId m_targetId m_message Front.is_value].
  change (String.eqb "bind" "bind") with true. cbv iota.
  rewrite String.eqb_refl.
  destruct P; [congruence|reflexivity].
Qed.

(** X19: from the server's two [bind] frames the client learns both
    identifiers: the notice sent on accept (empty target) gives it its own
    and makes it write the QR code for that identifier; a later [bind] frame
    that names it as origin gives it the app's, whatever status the frame
    carries.  The identifiers it held before do not matter. *)
Theorem front_learns_both_ids (cfg : Front.config) (st : Front.state)
        (F P status : string) :
  F <> "" ->
  P <> "" ->
  Front.websocket_message_handler cfg
    [frame_of (mkMsg "bind" F "" "targetId"); frame_of (mkMsg "bind" F P status)]
    st
  = Front.mkState F P
      (Front.qrcodes st
       ++ [(Front.qr_content cfg F, Front.QR_CODE_PATH cfg)]).
Proof.
  intros HF HP. unfold Front.websocket_message_handler. cbn [fold_left].
  rewrite (@on_notice cfg st F "targetId" HF).
  set (st1 := Front.mkState F _ _).
  change F with (Front.FrontClientId st1) at 1.
  now rewrite (@on_told cfg st1 P status HP).
Qed.

Definition local_config : Front.config :=
  Front.mkConfig "192.168.137.1" "../../../DGForts_qrcode.png".

Lemma front_learns_both_ids_witness :
  Front.websocket_message_handler local_config
    [frame_of (mkMsg "bind" "A1" "" "targetId");
     frame_of (mkMsg "bind" "A1" "B1" "200")]
    Front.start
  = Front.mkState "A1" "B1"
      (Front.qrcodes Front.start
       ++ [(Front.qr_content local_config "A1",
            Front.QR_CODE_PATH local_config)]).
Proof.
  apply (@front_learns_both_ids local_config Front.start "A1" "B1" "200");
    discriminate.
Defined.

(** X20: after a [break] frame the client sends no command: whatever it
    knew before, whatever the frame's other fields and the condition of its
    connection, [send_command_to_app] returns [False] and puts nothing on
    the wire. *)
Theorem front_silent_after_break
        (cfg : Front.config) (st : Front.state)
        (cid tid body : option string) (ws_conn : option link)
        (command : string) :
  Front.send_command_to_app
    (Front.on_frame cfg (Obj (Some "break") cid tid body) st) ws_conn command
  = (false, []).
Proof.
  unfold Front.on_frame. cbn [Front.is_value].
  change (String.eqb "break" "bind") with false.
  change (String.eqb "break" "break") with true. cbv iota.
  unfold Front.send_command_to_app. now destruct ws_conn.
Qed.

(** ** Client and server together *)

Lemma forwards (s : world) (w wc wt : ws) (m : Msg) :
  m_type m <> "bind" ->
  Dict.get (m_clientId m) (client_connections s) = Some wc ->
  Dict.get (m_targetId m) (client_connections s) = Some wt ->
  wc = w \/ wt = w ->
  Dict.get (m_clientId m) (binding_relations s) = Some (m_targetId m) ->
  link_of wt (sockets s) = Up ->
  on_message w (frame_of m) s = Ok tt (emit (Sent wt m) s).
Proof.
  intros Hty Hc Ht Hw Hb Hup.
  assert (Hv : fst (validate_relation (m_clientId m) (m_targetId m) w s) = true)
    by (apply validate_relation_ok; eauto 8).
  unfold on_message, frame_of. rewrite (not_bind Hty).
  unfold handle_other. unfold_monad. rewrite Hv. cbn.
  rewrite Ht, Hup. now rewrite msg_eta.
Qed.

Lemma bind_told (w wc wt : ws) (c t body : string) (s : world) :
  Dict.get c (client_connections s) = Some wc ->
  Dict.get t (client_connections s) = Some wt ->
  Dict.mem c (binding_relations s) = false ->
  in_values t (binding_relations s) = false ->
  link_of wc (sockets s) = Up ->
  link_of wt (sockets s) = Up ->
  on_message w (bind_frame c t body) s
  = Ok tt (emit (Sent wt (mkMsg "bind" c t "200"))
             (emit (Sent wc (mkMsg "bind" c t "200")) (bound c t s))).
Proof.
  intros Hc Ht Hbc Hbt Hupc Hupt.
  assert (Hm : Dict.mem t (client_connections s) = true)
    by (unfold Dict.mem; now rewrite Ht).
  rewrite on_bind_frame. unfold try_except.
  rewrite (@handle_bind_records w wc c t s Hc Hm Hbc Hbt Hupc).
  unfold_monad. cbn. rewrite Ht. cbn. now rewrite Hupt.
Qed.

(** X21: the pairing, end to end.  The client F and the app P are
    registered and unbound, and the client knows its own identifier.  When
    any connection asks the server to bind F to P, the server tells F; from
    that frame the client takes P as its target; the command it then sends
    passes the server's validation and reaches the app's transport with the
    very fields the client wrote. *)
Theorem front_command_reaches_app
        (cfg : Front.config) (st : Front.state) (s : world)
        (w wf wa : ws) (F P body command : string) :
  F <> "" ->
  P <> "" ->
  Front.FrontClientId st = F ->
  Dict.get F (client_connections s) = Some wf ->
  Dict.get P (client_connections s) = Some wa ->
  Dict.mem F (binding_relations s) = false ->
  in_values P (binding_relations s) = false ->
  link_of wf (sockets s) = Up ->
  link_of wa (sockets s) = Up ->
  let told := mkMsg "bind" F P "200" in
  let m := mkMsg "msg" F P command in
  exists s1,
    on_message w (bind_frame F P body) s = Ok tt s1 /\
    In (Sent wf told) (trace s1) /\
    Front.send_command_to_app (Front.on_frame cfg (frame_of told) st)
                              (Some Up) command = (true, [m]) /\
    on_message wf (frame_of m) s1 = Ok tt (emit (Sent wa m) s1).
Proof.
  intros HF HP Hst Hf Ha Hbf Hbp Hupf Hupa told m.
  eexists. split; [now apply (@bind_told w wf wa F P body s)|].
  split; [|split].
  - cbn. apply in_or_app. left. apply in_or_app. right. now left.
  - unfold told. subst F. rewrite (@on_told cfg st P "200" HP).
    unfold Front.send_command_to_app.
    cbn [Front.TargetAPPId Front.FrontClientId Front.closed].
    now rewrite (nonempty_true HF), (nonempty_true HP).
  - apply (@forwards _ wf wf wa m).
    + cbn. discriminate.
    + exact Hf.
    + exact Ha.
    + now left.
    + cbn. destruct (String.eqb_spec P F) as [->|Hne].
      * apply DictFacts.get_set_eq.
      * rewrite DictFacts.get_set_ne by exact Hne.
        apply DictFacts.get_set_eq.
    + exact Hupa.
Qed.

Lemma front_command_reaches_app_witness :
  exists s1,
    on_message 2 (bind_frame "A1" "B1" "DGLAB") unbound_world = Ok tt s1 /\
    In (Sent 1 (mkMsg "bind" "A1" "B1" "200")) (trace s1) /\
    Front.send_command_to_app
      (Front.on_frame local_config (frame_of (mkMsg "bind" "A1" "B1" "200"))
                      (Front.mkState "A1" "" []))
      (Some Up) "strength-1+2+50"
    = (true, [mkMsg "msg" "A1" "B1" "strength-1+2+50"]) /\
    on_message 1 (frame_of (mkMsg "msg" "A1" "B1" "strength-1+2+50")) s1
    = Ok tt (emit (Sent 2 (mkMsg "msg" "A1" "B1" "strength-1+2+50")) s1).
Proof.
  apply (@front_command_reaches_app local_config (Front.mkState "A1" "" [])
           unbound_world 2 1 2 "A1" "B1" "DGLAB" "strength-1+2+50");
    try reflexivity; discriminate.
Defined.

(** ** Edges of the connection handler *)

(** X24: a bind request that names an unregistered target is answered
    bind/401, whoever the origin is and whatever the bindings are, and the
    answer is the only effect. *)
Theorem unknown_target_401 (s : world) (w : ws) (c t body : string) :
  Dict.mem t (client_connections s) = false ->
  link_of w (sockets s) = Up ->
  on_message w (bind_frame c t body) s
  = Ok tt (emit (Sent w (mkMsg "bind" c t "401")) s).
Proof. apply bind_unknown_target. Qed.

Lemma unknown_target_401_witness :
  on_message 1 (bind_frame "A1" "Z9" "targetId") unbound_world
  = Ok tt (emit (Sent 1 (mkMsg "bind" "A1" "Z9" "401")) unbound_world).
Proof.
  apply (@unknown_target_401 unbound_world 1 "A1" "Z9" "targetId");
    reflexivity.
Defined.

(** X22: the notice sent on accept is outside the [try].  If the new
    connection's transport refuses it, [handle_client] ends with the
    exception before the read loop and without the cleanup: the identifier
    just drawn stays in the registry, whatever frames were still to come. *)
Theorem refused_notice_leaves_entry
        (w : ws) (uuid4 : string) (frames : list frame) (s : world) :
  link_of w (sockets s) <> Up ->
  handle_client w uuid4 frames s
  = Raise ConnectionClosed
          (set_connections (Dict.set uuid4 w (client_connections s)) s) /\
  Dict.get uuid4
    (client_connections (state_of (handle_client w uuid4 frames s)))
  = Some w.
Proof.
  intros Hw.
  assert (H : handle_client w uuid4 frames s
              = Raise ConnectionClosed
                  (set_connections (Dict.set uuid4 w (client_connections s)) s)).
  { unfold handle_client, accept. unfold_monad. cbn.
    destruct (link_of w (sockets s)); [contradiction|reflexivity|reflexivity]. }
  split; [exact H|]. rewrite H. cbn. apply DictFacts.get_set_eq.
Qed.

Lemma refused_notice_leaves_entry_witness :
  handle_client 2 "B1" [NotJson] failing_partner_world
  = Raise ConnectionClosed
          (set_connections
             (Dict.set "B1" 2 (client_connections failing_partner_world))
             failing_partner_world) /\
  Dict.get "B1"
    (client_connections
       (state_of (handle_client 2 "B1" [NotJson] failing_partner_world)))
  = Some 2.
Proof.
  apply (@refused_notice_leaves_entry 2 "B1" [NotJson] failing_partner_world).
  discriminate.
Defined.

(** A task the pass may cancel in store [s]: it is in the timer table and
    not done *)
Definition live_timer (s : world) (t : task) : Prop :=
  existsb (Nat.eqb t) (finished s) = false /\
  exists k, Dict.get k (client_timers s) = Some t.

Lemma get_del_some {V} (k k' : string) (v : V) (d : Dict.t V) :
  Dict.get k' (Dict.del k d) = Some v -> Dict.get k' d = Some v.
Proof. rewrite get_del. now destruct (String.eqb k' k). Qed.

Lemma cancel_owned_live (c : string) (ks : list string) (s : world) :
  exists s' ts,
    cancel_owned c ks s = Ok tt s' /\
    trace s' = trace s ++ map Cancel ts /\
    Forall (live_timer s) ts.
Proof.
  assert (Hgen : forall s0,
    finished s0 = finished s ->
    (forall k v, Dict.get k (client_timers s0) = Some v ->
                 Dict.get k (client_timers s) = Some v) ->
    exists s' ts,
      cancel_owned c ks s0 = Ok tt s' /\
      trace s' = trace s0 ++ map Cancel ts /\
      Forall (live_timer s) ts).
  { induction ks as [|key rest IH]; intros s0 Hf Hsub.
    - exists s0, []. cbn. now rewrite app_nil_r.
    - cbn [cancel_owned]. unfold bind.
      destruct (startswith key (String.append c "-")) eqn:P.
      + destruct (split_on_second _ _ P) as [ch ->].
        unfold cancel_timer. unfold_monad.
        destruct (Dict.get (timer_key_of c ch) (client_timers s0))
          as [t|] eqn:G.
        * destruct (existsb (Nat.eqb t) (finished s0)) eqn:D; cbn.
          -- destruct (IH (set_timers (Dict.del (timer_key_of c ch)
                                                 (client_timers s0)) s0))
               as (s' & ts & -> & Htr & Hts);
               [exact Hf|intros k v Hk; apply Hsub; now apply get_del_some in Hk|].
             exists s', ts. now repeat split.
          -- destruct (IH (set_timers (Dict.del (timer_key_of c ch)
                                                 (client_timers s0))
                                      (emit (Cancel t) s0)))
               as (s' & ts & -> & Htr & Hts);
               [exact Hf|intros k v Hk; apply Hsub; now apply get_del_some in Hk|].
             exists s', (t :: ts). split; [reflexivity|]. split.
             ++ rewrite Htr. cbn. now rewrite <- app_assoc.
             ++ constructor; [|exact Hts]. split.
                ** now rewrite <- Hf.
                ** exists (timer_key_of c ch). now apply Hsub.
        * apply (IH s0 Hf Hsub).
      + unfold ret. apply (IH s0 Hf Hsub). }
  apply Hgen; auto.
Qed.

(** X23: the cleanup calls [cancel()] only on live timers: every task it
    cancels was in the timer table when the cleanup began and was not done.
    A finished task's entry is dropped without a cancellation. *)
Theorem cleanup_cancels_only_live (c : string) (s : world) (t : task) :
  In (Cancel t) (skipn (length (trace s)) (trace (state_of (cleanup c s)))) ->
  live_timer s t.
Proof.
  rewrite cleanup_after_removal.
  set (s1 := set_connections (Dict.del c (client_connections s)) s).
  unfold bind.
  assert (Hstep2 : forall s2,
    teardown_binding c s1 = Ok tt s2 ->
    exists evs, trace s2 = trace s ++ evs /\
                ~ In (Cancel t) evs /\
                client_timers s2 = client_timers s /\
                finished s2 = finished s).
  { intros s2. rewrite teardown_binding_eq.
    destruct (Dict.get c (binding_relations s1)) as [p|].
    - destruct (Dict.get p (client_connections s1)) as [wp|].
      + destruct (link_of wp (sockets s1)); intros [= <-].
        * exists [Sent wp (break_msg c p); Closed wp]. cbn.
          rewrite <- app_assoc. repeat split; auto.
          intros [H|[H|[]]]; discriminate.
        * exists []. cbn. rewrite app_nil_r. now repeat split.
      + intros [= <-]. exists []. cbn. rewrite app_nil_r. now repeat split.
    - intros [= <-]. exists []. cbn. rewrite app_nil_r. now repeat split. }
  destruct (teardown_binding c s1) as [[] s2|e s2] eqn:E.
  - destruct (Hstep2 s2 eq_refl) as (evs & Htr & Hno & Htm & Hfin).
    unfold cancel_timers_of, bind, gets.
    destruct (cancel_owned_live c (Dict.keys (client_timers s2)) s2)
      as (s3 & ts & -> & Htr3 & Hts).
    cbn [state_of]. rewrite Htr3, Htr, <- app_assoc, skipn_app_exact.
    intros Hin. apply in_app_or in Hin. destruct Hin as [Hin|Hin];
      [contradiction|].
    apply in_map_iff in Hin. destruct Hin as (t' & [= ->] & Hin).
    rewrite Forall_forall in Hts. destruct (Hts t Hin) as (Hd & k & Hk).
    split; [now rewrite <- Hfin|]. exists k. now rewrite <- Htm.
  - rewrite teardown_binding_eq in E.
    destruct (Dict.get c (binding_relations s1)) as [p|]; [|discriminate].
    destruct (Dict.get p (client_connections s1)) as [wp|]; [|discriminate].
    destruct (link_of wp (sockets s1)); try discriminate.
    injection E as _ <-. cbn.
    rewrite <- (app_nil_r (trace s)) at 2. rewrite skipn_app_exact.
    intros [].
Qed.

Definition done_timer_world : world :=
  mkWorld [("A1", 1)] [] [("A1-a", 7); ("A1-b", 8)] [(1, Down)] [8] [].

Lemma cleanup_cancels_only_live_witness : live_timer done_timer_world 7.
Proof.
  apply (@cleanup_cancels_only_live "A1" done_timer_world 7).
  cbn. now left.
Defined.

(** * The [finally] block and the server at the grain of their awaits

    The [finally] block of [handle_client] has two awaits: the [send] of the
    break notice and the [close] of the partner's connection.  While the
    block is suspended there, other handlers run on the shared dictionaries.
    Here the block is cut at those awaits, its deletion of the binding raises
    [KeyError] as [del] does, and its [client_id] may be the unhashable value
    a frame's [clientId] left in the variable. *)

(** The value of the local variable [client_id] when the block starts: a
    string, or a JSON array or object, which is unhashable and on which
    [client_id in client_connections] raises.  (A number, a boolean or
    [null] is hashable; the block treats it as it treats a string that is
    no key of the registry, and it is not written apart.) *)
Inductive local_id : Type :=
| Name (s : string)
| Unhashable.

(** Where a suspended block resumes *)
Inductive stage : Type :=
| AfterSend (c p : string)     (* at [client_connections[target_id].close()] *)
| AfterClose (c p : string).   (* at [del binding_relations[client_id]] *)

(** [del binding_relations[k]] *)
Definition del_binding (k : string) : M unit :=
  fun s => match Dict.get k (binding_relations s) with
           | Some _ =>
               Ok tt (set_bindings (Dict.del k (binding_relations s)) s)
           | None => Raise KeyError s
           end.

(** From the deletion of the binding to the end of the block *)
Definition finally_end (client_id target_id : string) : M unit :=
  del_binding client_id ;;
  b <- gets binding_relations ;;
  when (Dict.mem target_id b)
       (modify (fun s =>
          set_bindings (Dict.del target_id (binding_relations s)) s)) ;;
  cancel_timers_of client_id.

(** From the start of the block to its first await, or to its end when the
    partner is not notified *)
Definition finally_begin (id : local_id) : M (option stage) :=
  match id with
  | Unhashable => raise TypeError
  | Name client_id =>
      remove_connection client_id ;;
      b <- gets binding_relations ;;
      match Dict.get client_id b with
      | None => cancel_timers_of client_id ;; ret None
      | Some target_id =>
          conns <- gets client_connections ;;
          match Dict.get target_id conns with
          | Some wt =>
              o <- ws_open wt ;;
              if o then
                ws_send wt (break_msg client_id target_id) ;;
                ret (Some (AfterSend client_id target_id))
              else finally_end client_id target_id ;; ret None
          | None => finally_end client_id target_id ;; ret None
          end
      end
  end.

(** From one await to the next, or to the end of the block *)
Definition finally_resume (st : stage) : M (option stage) :=
  match st with
  | AfterSend client_id target_id =>
      wt <- connection target_id ;;
      ws_close wt ;;
      ret (Some (AfterClose client_id target_id))
  | AfterClose client_id target_id =>
      finally_end client_id target_id ;; ret None
  end.

(** The whole block, [env1] and [env2] being what the other tasks do to the
    store during the first and the second await *)
Definition finally_block (env1 env2 : world -> world) (id : local_id)
  : M unit :=
  r <- finally_begin id ;;
  match r with
  | None => ret tt
  | Some st =>
      modify env1 ;;
      r' <- finally_resume st ;;
      match r' with
      | None => ret tt
      | Some st' =>
          modify env2 ;;
          finally_resume st' ;;
          ret tt
      end
  end.

(** The store after [await ws.close()] on [w] *)
Definition closed (w : ws) (s : world) : world :=
  emit (Closed w) (set_sockets (set_link w Down (sockets s)) s).

Lemma finally_end_eq (c p : string) (s : world) :
  finally_end c p s =
  match Dict.get c (binding_relations s) with
  | None => Raise KeyError s
  | Some _ => cancel_timers_of c (unbind c p s)
  end.
Proof.
  unfold finally_end, del_binding, unbind. unfold_monad.
  destruct (Dict.get c (binding_relations s)) as [q|]; [|reflexivity].
  cbn [binding_relations set_bindings].
  destruct (Dict.mem p (Dict.del c (binding_relations s))) eqn:E.
  - reflexivity.
  - apply DictFacts.mem_false in E. rewrite (del_absent _ _ E).
    reflexivity.
Qed.

Lemma ret_after {A} (c : M unit) (a : A) (s : world) :
  bind c (fun _ => ret a) s
  = match c s with Ok _ s' => Ok a s' | Raise e s' => Raise e s' end.
Proof. reflexivity. Qed.

(** The block, case by case. *)
Lemma finally_block_eq (env1 env2 : world -> world) (c : string) (s : world) :
  let s1 := set_connections (Dict.del c (client_connections s)) s in
  finally_block env1 env2 (Name c) s =
  match Dict.get c (binding_relations s) with
  | None => cancel_timers_of c s1
  | Some p =>
      match Dict.get p (client_connections s1) with
      | None => cancel_timers_of c (unbind c p s1)
      | Some wp =>
          match link_of wp (sockets s) with
          | Down => cancel_timers_of c (unbind c p s1)
          | Failing => Raise ConnectionClosed s1
          | Up =>
              let s2 := env1 (emit (Sent wp (break_msg c p)) s1) in
              match Dict.get p (client_connections s2) with
              | None => Raise KeyError s2
              | Some wp' =>
                  let s3 := env2 (closed wp' s2) in
                  match Dict.get c (binding_relations s3) with
                  | None => Raise KeyError s3
                  | Some _ => cancel_timers_of c (unbind c p s3)
                  end
              end
          end
      end
  end.
Proof.
  intros s1.
  assert (Hk : forall s0 : world,
    match cancel_timers_of c s0 with
    | Ok _ s' => Ok tt s'
    | Raise e s' => Raise e s'
    end = cancel_timers_of c s0).
  { intros s0. destruct (cancel_timers_of_ok c s0) as (s' & -> & _).
    reflexivity. }
  assert (Hend : forall p s0,
    Dict.get c (binding_relations s0) <> None ->
    finally_end c p s0 = cancel_timers_of c (unbind c p s0)).
  { intros p s0 H. rewrite finally_end_eq.
    now destruct (Dict.get c (binding_relations s0)). }
  unfold finally_block, finally_begin.
  unfold bind at 1. unfold bind at 1. rewrite remove_connection_eq. fold s1.
  unfold bind at 1. unfold gets at 1.
  change (binding_relations s1) with (binding_relations s).
  destruct (Dict.get c (binding_relations s)) as [p|] eqn:Hc.
  - unfold bind at 1. unfold gets at 1.
    destruct (Dict.get p (client_connections s1)) as [wp|].
    + unfold bind at 1. unfold ws_open, gets.
      change (sockets s1) with (sockets s).
      destruct (link_of wp (sockets s)) eqn:Hl; cbn [is_open].
      * rewrite ret_after. unfold ws_send.
        change (sockets s1) with (sockets s). rewrite Hl.
        unfold bind at 1. unfold modify at 1.
        unfold finally_resume. unfold bind at 1. unfold bind at 1.
        unfold connection.
        destruct (Dict.get p (client_connections
                    (env1 (emit (Sent wp (break_msg c p)) s1)))) as [wp'|];
          [|reflexivity].
        unfold closed, bind, ws_close, modify, ret.
        rewrite finally_end_eq.
        match goal with
        | |- context [Dict.get c (binding_relations ?x)] =>
            destruct (Dict.get c (binding_relations x)); [|reflexivity];
            destruct (cancel_timers_of_ok c (unbind c p x)) as (s' & -> & _)
        end.
        reflexivity.
      * rewrite ret_after. unfold ws_send.
        change (sockets s1) with (sockets s). now rewrite Hl.
      * rewrite ret_after, Hend by (cbn; congruence).
        destruct (cancel_timers_of_ok c (unbind c p s1)) as (s' & -> & _).
        reflexivity.
    + rewrite ret_after, Hend by (cbn; congruence).
      destruct (cancel_timers_of_ok c (unbind c p s1)) as (s' & -> & _).
      reflexivity.
  - rewrite ret_after.
    destruct (cancel_timers_of_ok c s1) as (s' & -> & _). reflexivity.
Qed.

(** With nothing happening during the awaits, the block is [cleanup]. *)
Lemma finally_block_alone (c : string) (s : world) :
  finally_block (fun s => s) (fun s => s) (Name c) s = cleanup c s.
Proof.
  rewrite finally_block_eq, cleanup_after_removal. cbv zeta.
  set (s1 := set_connections (Dict.del c (client_connections s)) s).
  unfold bind. rewrite teardown_binding_eq.
  change (binding_relations s1) with (binding_relations s).
  change (sockets s1) with (sockets s).
  destruct (Dict.get c (binding_relations s)) as [p|] eqn:Hc; [|reflexivity].
  destruct (Dict.get p (client_connections s1)) as [wp|] eqn:Hp;
    [|reflexivity].
  destruct (link_of wp (sockets s)); try reflexivity.
  change (client_connections (emit (Sent wp (break_msg c p)) s1))
    with (client_connections s1). rewrite Hp.
  change (binding_relations (closed wp (emit (Sent wp (break_msg c p)) s1)))
    with (binding_relations s). rewrite Hc. reflexivity.
Qed.

(** The store once [client_id] is out of the registry *)
Definition unregistered (c : string) (s : world) : world :=
  set_connections (Dict.del c (client_connections s)) s.

(** The timer pass: it always completes, and key by key. *)
Lemma cancel_timers_of_timers (c : string) (s : world) :
  exists s',
    cancel_timers_of c s = Ok tt s' /\ only_cancels s s' /\
    forall k, Dict.get k (client_timers s')
              = if targeted c (Dict.keys (client_timers s)) k then None
                else Dict.get k (client_timers s).
Proof.
  destruct (cancel_timers_of_ok c s) as (s' & H & Hc).
  exists s'. split; [exact H|]. split; [exact Hc|].
  intros k.
  pose proof (cancel_owned_timers c (Dict.keys (client_timers s)) s k) as Hk.
  unfold cancel_timers_of, bind, gets in H. now rewrite H in Hk.
Qed.

(** C2 (amended): the [finally] block is a sequence with no handler inside.
    With a string in [client_id], the removal from the registry always runs.
    The binding teardown and then the timer pass run after it provided
    nothing before them raises, and three statements can: the send to the
    partner ([ConnectionClosed], when the partner's transport reads open and
    refuses the send), the lookup of the partner's connection for its close,
    after the await of that send ([KeyError], when the partner was
    unregistered meanwhile), and the deletion of the binding, after the await
    of the close ([KeyError], when the binding was deleted meanwhile).  The
    exception leaves the block with the store as it is, the later steps not
    run.  The timer pass itself always completes.  With an unhashable value
    in [client_id], the first test of the block raises [TypeError] and no
    step runs.  [env1] and [env2] are what the other tasks do during the two
    awaits. *)
Theorem finally_block_steps (env1 env2 : world -> world) (c : string)
                            (s : world) :
  finally_block env1 env2 Unhashable s = Raise TypeError s
  /\ remove_connection c s = Ok tt (unregistered c s)
  /\ finally_block env1 env2 (Name c) s =
     match Dict.get c (binding_relations s) with
     | None => cancel_timers_of c (unregistered c s)
     | Some p =>
         match Dict.get p (client_connections (unregistered c s)) with
         | None => cancel_timers_of c (unbind c p (unregistered c s))
         | Some wp =>
             match link_of wp (sockets s) with
             | Down => cancel_timers_of c (unbind c p (unregistered c s))
             | Failing => Raise ConnectionClosed (unregistered c s)
             | Up =>
                 let s2 :=
                   env1 (emit (Sent wp (break_msg c p)) (unregistered c s)) in
                 match Dict.get p (client_connections s2) with
                 | None => Raise KeyError s2
                 | Some wp' =>
                     let s3 := env2 (closed wp' s2) in
                     match Dict.get c (binding_relations s3) with
                     | None => Raise KeyError s3
                     | Some _ => cancel_timers_of c (unbind c p s3)
                     end
                 end
             end
         end
     end
  /\ forall s0, exists s',
       cancel_timers_of c s0 = Ok tt s' /\ only_cancels s0 s' /\
       forall k, Dict.get k (client_timers s')
                 = if targeted c (Dict.keys (client_timers s0)) k then None
                   else Dict.get k (client_timers s0).
Proof.
  split; [reflexivity|]. split; [apply remove_connection_eq|].
  split; [apply finally_block_eq|].
  intros s0. apply cancel_timers_of_timers.
Qed.

(** X13: the [finally] block runs with an identifier bound to a different
    one whose connection is registered and accepts the send.  If the partner
    is still registered when the send's await is over, and the binding of the
    identifier is still there when the close's await is over, the block
    completes: the partner was sent the [break]/209 naming the identifier
    that left, the transport registered for the partner was then closed,
    only timer cancellations follow, and neither identifier holds a binding
    afterwards. *)
Theorem partner_told_and_closed
        (env1 env2 : world -> world) (s : world) (c p : string) (wp wp' : ws) :
  Dict.get c (binding_relations s) = Some p ->
  c <> p ->
  Dict.get p (client_connections s) = Some wp ->
  link_of wp (sockets s) = Up ->
  Dict.get p (client_connections
                (env1 (emit (Sent wp (break_msg c p)) (unregistered c s))))
  = Some wp' ->
  Dict.get c (binding_relations
                (env2 (closed wp'
                   (env1 (emit (Sent wp (break_msg c p))
                               (unregistered c s))))))
  <> None ->
  let s2 := env1 (emit (Sent wp (break_msg c p)) (unregistered c s)) in
  let s3 := env2 (closed wp' s2) in
  exists s' ts,
    finally_block env1 env2 (Name c) s = Ok tt s' /\
    trace (emit (Sent wp (break_msg c p)) (unregistered c s))
    = trace s ++ [Sent wp (break_msg c p)] /\
    trace (closed wp' s2) = trace s2 ++ [Closed wp'] /\
    link_of wp' (sockets (closed wp' s2)) = Down /\
    trace s' = trace s3 ++ map Cancel ts /\
    client_connections s' = client_connections s3 /\
    sockets s' = sockets s3 /\
    Dict.get c (binding_relations s') = None /\
    Dict.get p (binding_relations s') = None.
Proof.
  intros Hb Hne Hp Hup Hp' Hc' s2 s3.
  rewrite finally_block_eq. cbv zeta. rewrite Hb.
  change (client_connections (set_connections
            (Dict.del c (client_connections s)) s))
    with (Dict.del c (client_connections s)).
  rewrite DictFacts.get_del_ne, Hp, Hup by exact Hne.
  fold (unregistered c s). fold s2. unfold s2 at 1. rewrite Hp'. fold s2.
  fold s3.
  destruct (Dict.get c (binding_relations s3)) eqn:E; [|now elim Hc'].
  destruct (cancel_timers_of_ok c (unbind c p s3))
    as (s' & Hs' & Hcn & Hbn & Hsk & _ & ts & Htr).
  exists s', ts. split; [exact Hs'|].
  split; [reflexivity|]. split; [reflexivity|].
  split; [apply link_of_set_link|].
  split; [exact Htr|]. split; [exact Hcn|]. split; [exact Hsk|].
  rewrite Hbn. unfold unbind. cbn [binding_relations set_bindings].
  split.
  - rewrite DictFacts.get_del_ne by congruence. apply DictFacts.get_del_eq.
  - apply DictFacts.get_del_eq.
Qed.

Lemma partner_told_and_closed_witness :
  exists s' ts,
    finally_block (fun s => s) (fun s => s) (Name "B1") relay_world
    = Ok tt s' /\
    trace (emit (Sent 1 (break_msg "B1" "A1"))
                (unregistered "B1" relay_world))
    = trace relay_world ++ [Sent 1 (break_msg "B1" "A1")] /\
    trace (closed 1 (emit (Sent 1 (break_msg "B1" "A1"))
                          (unregistered "B1" relay_world)))
    = trace (emit (Sent 1 (break_msg "B1" "A1"))
                  (unregistered "B1" relay_world)) ++ [Closed 1] /\
    link_of 1 (sockets (closed 1 (emit (Sent 1 (break_msg "B1" "A1"))
                                       (unregistered "B1" relay_world))))
    = Down /\
    trace s' = trace (closed 1 (emit (Sent 1 (break_msg "B1" "A1"))
                                     (unregistered "B1" relay_world)))
               ++ map Cancel ts /\
    client_connections s'
    = client_connections (closed 1 (emit (Sent 1 (break_msg "B1" "A1"))
                                         (unregistered "B1" relay_world))) /\
    sockets s'
    = sockets (closed 1 (emit (Sent 1 (break_msg "B1" "A1"))
                              (unregistered "B1" relay_world))) /\
    Dict.get "B1" (binding_relations s') = None /\
    Dict.get "A1" (binding_relations s') = None.
Proof.
  apply (@partner_told_and_closed (fun s => s) (fun s => s)
           relay_world "B1" "A1" 1 1).
  - reflexivity.
  - discriminate.
  - reflexivity.
  - reflexivity.
  - reflexivity.
  - discriminate.
Defined.

(** ** The server with suspended [finally] blocks

    The server again, a [finally] block now taking up to three steps, with
    any step of any other handler between them.  An iteration of the read
    loop stays one step: it reads and writes the three dictionaries before
    its first await, so on them it acts as [on_message] does, and what it
    does after an await is sending.  A handler may leave its loop at any
    step, which covers the iteration that raised.  [send_heartbeat] writes
    none of the dictionaries and is left out. *)

Record isystem : Type := mkISystem {
  i_world : world;
  i_local : list (ws * string);   (* handlers in their read loop *)
  i_paused : list (ws * stage);   (* handlers suspended in their [finally] *)
  i_drawn : list string           (* the identifiers [uuid4] has returned *)
}.

Definition iinitial : isystem := mkISystem empty_world [] [] [].

Fixpoint stage_of (w : ws) (q : list (ws * stage)) : option stage :=
  match q with
  | [] => None
  | (w', st) :: r => if Nat.eqb w w' then Some st else stage_of w r
  end.

Fixpoint forget_stage (w : ws) (q : list (ws * stage)) : list (ws * stage) :=
  match q with
  | [] => []
  | (w', st) :: r =>
      if Nat.eqb w w' then forget_stage w r else (w', st) :: forget_stage w r
  end.

Inductive iaction : Type :=
| IConnect (w : ws) (uuid4 : string)  (* a client connects; the id is drawn *)
| IReceive (w : ws) (fr : frame)      (* the read loop of [w] gets a frame *)
| IHangup (w : ws)                    (* the read loop of [w] ends *)
| IResume (w : ws)                    (* an await of [w]'s [finally] is over *)
| INetwork (k : list (ws * link)).    (* transports change condition *)

(** The handler of [w] after a step of its [finally] block: suspended at the
    next await, or over, by the end of the block or by an exception *)
Definition settle (w : ws) (l : list (ws * string)) (q : list (ws * stage))
                  (d : list string) (r : res (option stage)) : isystem :=
  match r with
  | Ok (Some st) s' => mkISystem s' l ((w, st) :: q) d
  | Ok None s' => mkISystem s' l q d
  | Raise _ s' => mkISystem s' l q d
  end.

Definition iperform (a : iaction) (y : isystem) : isystem :=
  let s := i_world y in
  let l := i_local y in
  let q := i_paused y in
  let d := i_drawn y in
  match a with
  | IConnect w uuid4 =>
      match local_of w l, stage_of w q with
      | None, None =>
          match accept w uuid4 s with
          | Ok _ s' => mkISystem s' ((w, uuid4) :: l) q (uuid4 :: d)
          | Raise _ s' => mkISystem s' l q (uuid4 :: d)
          end
      | _, _ => y
      end
  | IReceive w fr =>
      match local_of w l with
      | None => y
      | Some client_id =>
          mkISystem (state_of (on_message w fr s))
                    ((w, client_id_after client_id fr) :: forget w l) q d
      end
  | IHangup w =>
      match local_of w l with
      | None => y
      | Some client_id =>
          settle w (forget w l) q d (finally_begin (Name client_id) s)
      end
  | IResume w =>
      match stage_of w q with
      | None => y
      | Some st =>
          settle w l (forget_stage w q) d (finally_resume st s)
      end
  | INetwork k => mkISystem (set_sockets k s) l q d
  end.

Definition irun_from (y : isystem) (acts : list iaction) : isystem :=
  fold_left (fun y a => iperform a y) acts y.

Definition irun (acts : list iaction) : isystem := irun_from iinitial acts.

(** The origin of a bind request *)
Definition bind_origin (fr : frame) : option string :=
  match fr with
  | Obj (Some type_) (Some client_id) (Some _) (Some _) =>
      if String.eqb type_ "bind" then Some client_id else None
  | _ => None
  end.

(** What the runs below are asked for: [uuid4] returns an identifier it has
    not returned before, and a bind request names as its origin an
    identifier that is registered when the request is handled. *)
Definition step_ok (y : isystem) (a : iaction) : bool :=
  match a with
  | IConnect _ uuid4 => negb (existsb (String.eqb uuid4) (i_drawn y))
  | IReceive _ fr =>
      match bind_origin fr with
      | Some client_id =>
          Dict.mem client_id (client_connections (i_world y))
      | None => true
      end
  | _ => true
  end.

Fixpoint admissible (y : isystem) (acts : list iaction) : bool :=
  match acts with
  | [] => true
  | a :: rest => step_ok y a && admissible (iperform a y) rest
  end.

Definition stage_ids (st : stage) : string * string :=
  match st with
  | AfterSend c p => (c, p)
  | AfterClose c p => (c, p)
  end.

(** A suspended block holds an identifier that was drawn and is out of the
    registry, and the binding it read is still there or is gone. *)
Definition paused_ok (conns : Dict.t ws) (b : Dict.t string)
                     (d : list string) (st : stage) : Prop :=
  Dict.get (fst (stage_ids st)) conns = None /\
  In (fst (stage_ids st)) d /\
  (Dict.get (fst (stage_ids st)) b = Some (snd (stage_ids st)) \/
   Dict.get (fst (stage_ids st)) b = None).

Definition inv (conns : Dict.t ws) (b : Dict.t string) (d : list string)
               (q : list (ws * stage)) : Prop :=
  (symmetric b /\ NoDup (Dict.keys b)) /\
  (forall k, Dict.get k conns <> None -> In k d) /\
  (forall k, Dict.get k b <> None -> In k d) /\
  (forall w st, In (w, st) q -> paused_ok conns b d st).

Definition consistent (y : isystem) : Prop :=
  inv (client_connections (i_world y)) (binding_relations (i_world y))
      (i_drawn y) (i_paused y).

Lemma stage_of_in (w : ws) (q : list (ws * stage)) (st : stage) :
  stage_of w q = Some st -> In (w, st) q.
Proof.
  induction q as [|[w' st'] r IH]; cbn; [discriminate|].
  destruct (Nat.eqb_spec w w') as [->|_].
  - intros [= ->]. now left.
  - intros H. right. now apply IH.
Qed.

Lemma forget_stage_in (w : ws) (q : list (ws * stage)) (x : ws * stage) :
  In x (forget_stage w q) -> In x q.
Proof.
  induction q as [|[w' st'] r IH]; cbn; [auto|].
  destruct (Nat.eqb w w'); cbn; intuition.
Qed.

Lemma inv_paused (conns : Dict.t ws) (b : Dict.t string) (d : list string)
                 (q q' : list (ws * stage)) :
  inv conns b d q ->
  (forall w st, In (w, st) q' ->
                In (w, st) q \/ exists w0 st0, In (w0, st0) q /\
                                               stage_ids st = stage_ids st0) ->
  inv conns b d q'.
Proof.
  intros (Hw & Hc & Hb & Hq) Hsub. repeat split; try tauto.
  all: destruct (Hsub _ _ H) as [Hin|(w0 & st0 & Hin & E)];
    [apply (Hq _ _ Hin)|rewrite E; apply (Hq _ _ Hin)].
Qed.

Lemma inv_forget (conns : Dict.t ws) (b : Dict.t string) (d : list string)
                 (q : list (ws * stage)) (w : ws) :
  inv conns b d q -> inv conns b d (forget_stage w q).
Proof.
  intros H. eapply inv_paused; [exact H|]. intros w0 st Hin. left.
  now apply forget_stage_in in Hin.
Qed.

Lemma inv_unregister (conns : Dict.t ws) (b : Dict.t string)
                     (d : list string) (q : list (ws * stage)) (c : string) :
  inv conns b d q -> inv (Dict.del c conns) b d q.
Proof.
  intros (Hw & Hc & Hb & Hq). split; [exact Hw|]. split; [|split].
  - intros k. rewrite get_del. destruct (String.eqb k c); [congruence|].
    apply Hc.
  - exact Hb.
  - intros w st Hin. destruct (Hq _ _ Hin) as (H1 & H2 & H3).
    split; [|now split]. rewrite get_del.
    now destruct (String.eqb (fst (stage_ids st)) c).
Qed.

Lemma inv_unbind (conns : Dict.t ws) (b : Dict.t string) (d : list string)
                 (q : list (ws * stage)) (c p : string) :
  inv conns b d q ->
  Dict.get c b = Some p ->
  inv conns (Dict.del p (Dict.del c b)) d q.
Proof.
  intros ((Hs & Hn) & Hc & Hb & Hq) Hcp. split; [split|split; [|split]].
  - now apply symmetric_unbind.
  - now apply DictFacts.nodup_del, DictFacts.nodup_del.
  - exact Hc.
  - intros k. rewrite !get_del.
    destruct (String.eqb k p); [congruence|].
    destruct (String.eqb k c); [congruence|]. apply Hb.
  - intros w st Hin. destruct (Hq _ _ Hin) as (H1 & H2 & H3).
    split; [exact H1|]. split; [exact H2|]. rewrite !get_del.
    destruct (String.eqb (fst (stage_ids st)) p); [now right|].
    destruct (String.eqb (fst (stage_ids st)) c); [now right|exact H3].
Qed.

Lemma inv_bind (conns : Dict.t ws) (b : Dict.t string) (d : list string)
               (q : list (ws * stage)) (c t : string) :
  inv conns b d q ->
  Dict.mem c conns = true ->
  Dict.mem t conns = true ->
  Dict.mem c b = false ->
  in_values t b = false ->
  inv conns (Dict.set t c (Dict.set c t b)) d q.
Proof.
  intros ((Hs & Hn) & Hc & Hb & Hq) Hcc Htc Hcb Htb.
  assert (Hcd : Dict.get c conns <> None).
  { unfold Dict.mem in Hcc. now destruct (Dict.get c conns). }
  assert (Htd : Dict.get t conns <> None).
  { unfold Dict.mem in Htc. now destruct (Dict.get t conns). }
  split; [split|split; [|split]].
  - now apply symmetric_bind.
  - now apply DictFacts.nodup_set, DictFacts.nodup_set.
  - exact Hc.
  - intros k Hk.
    destruct (String.eqb_spec t k) as [<-|Htk]; [now apply Hc|].
    rewrite DictFacts.get_set_ne in Hk by exact Htk.
    destruct (String.eqb_spec c k) as [<-|Hck]; [now apply Hc|].
    rewrite DictFacts.get_set_ne in Hk by exact Hck. now apply Hb.
  - intros w st Hin. destruct (Hq _ _ Hin) as (H1 & H2 & H3).
    split; [exact H1|]. split; [exact H2|].
    rewrite !DictFacts.get_set_ne by congruence. exact H3.
Qed.

Lemma inv_connect (conns : Dict.t ws) (b : Dict.t string) (d : list string)
                  (q : list (ws * stage)) (u : string) (w : ws) :
  inv conns b d q ->
  ~ In u d ->
  inv (Dict.set u w conns) b (u :: d) q.
Proof.
  intros (Hw & Hc & Hb & Hq) Hu. split; [exact Hw|]. split; [|split].
  - intros k Hk. destruct (String.eqb_spec u k) as [<-|Huk]; [now left|].
    rewrite DictFacts.get_set_ne in Hk by exact Huk. right. now apply Hc.
  - intros k Hk. right. now apply Hb.
  - intros w0 st Hin. destruct (Hq _ _ Hin) as (H1 & H2 & H3).
    split; [|split; [now right|exact H3]].
    rewrite DictFacts.get_set_ne; [exact H1|]. intros ->. contradiction.
Qed.

Lemma inv_pause (conns : Dict.t ws) (b : Dict.t string) (d : list string)
                (q : list (ws * stage)) (w : ws) (st : stage) :
  inv conns b d q ->
  Dict.get (fst (stage_ids st)) conns = None ->
  Dict.get (fst (stage_ids st)) b = Some (snd (stage_ids st)) ->
  inv conns b d ((w, st) :: q).
Proof.
  intros (Hw & Hc & Hb & Hq) H1 H2. repeat split; try tauto.
  all: destruct H as [[= <- <-]|Hin]; try apply (Hq _ _ Hin); auto.
  - apply Hb. congruence.
Qed.

(** The block up to its first await, case by case. *)
Lemma finally_begin_eq (c : string) (s : world) :
  finally_begin (Name c) s =
  match Dict.get c (binding_relations s) with
  | None =>
      bind (cancel_timers_of c) (fun _ => ret None) (unregistered c s)
  | Some p =>
      match Dict.get p (client_connections (unregistered c s)) with
      | None => bind (finally_end c p) (fun _ => ret None) (unregistered c s)
      | Some wp =>
          match link_of wp (sockets s) with
          | Up => Ok (Some (AfterSend c p))
                     (emit (Sent wp (break_msg c p)) (unregistered c s))
          | Failing => Raise ConnectionClosed (unregistered c s)
          | Down =>
              bind (finally_end c p) (fun _ => ret None) (unregistered c s)
          end
      end
  end.
Proof.
  unfold finally_begin. unfold bind at 1. rewrite remove_connection_eq.
  fold (unregistered c s). unfold bind at 1. unfold gets at 1.
  change (binding_relations (unregistered c s)) with (binding_relations s).
  destruct (Dict.get c (binding_relations s)) as [p|]; [|reflexivity].
  unfold bind at 1. unfold gets at 1.
  destruct (Dict.get p (client_connections (unregistered c s))) as [wp|];
    [|reflexivity].
  unfold bind at 1. unfold ws_open, gets.
  change (sockets (unregistered c s)) with (sockets s).
  destruct (link_of wp (sockets s)) eqn:Hl; cbn [is_open]; try reflexivity.
  - unfold bind, ws_send. change (sockets (unregistered c s)) with (sockets s).
    now rewrite Hl.
  - unfold bind, ws_send. change (sockets (unregistered c s)) with (sockets s).
    now rewrite Hl.
Qed.

Lemma handle_bind_binds (w : ws) (c t : string) (s : world) :
  let b := binding_relations s in
  let b' := binding_relations (state_of (handle_bind w c t s)) in
  b' = b \/
  (Dict.mem t (client_connections s) = true /\
   Dict.mem c b = false /\ in_values t b = false /\
   b' = Dict.set t c (Dict.set c t b)).
Proof.
  unfold handle_bind. unfold_monad. simpl.
  destruct (Dict.mem t (client_connections s)); simpl;
    [|left; apply ws_send_bindings].
  destruct (Dict.mem c (binding_relations s)) eqn:Hc; simpl;
    [left; apply ws_send_bindings|].
  destruct (in_values t (binding_relations s)) eqn:Ht; simpl;
    [left; apply ws_send_bindings|].
  right. repeat split.
  destruct (Dict.get c (client_connections s)) as [wc|]; [|reflexivity].
  cbn. destruct (link_of wc (sockets s)); cbn; try reflexivity.
  destruct (Dict.get t (client_connections s)) as [wt|]; [|reflexivity].
  cbn. destruct (link_of wt (sockets s)); reflexivity.
Qed.

(** What an iteration of the read loop does to the binding map. *)
Lemma on_message_binds (w : ws) (fr : frame) (s : world) :
  let b := binding_relations s in
  let b' := binding_relations (state_of (on_message w fr s)) in
  b' = b \/
  exists c t,
    bind_origin fr = Some c /\
    Dict.mem t (client_connections s) = true /\
    Dict.mem c b = false /\ in_values t b = false /\
    b' = Dict.set t c (Dict.set c t b).
Proof.
  cbv zeta. unfold on_message.
  destruct fr as [|ty c t body]; [left; apply ws_send_bindings|].
  rewrite try_except_send_bindings.
  destruct ty as [ty|], c as [c|], t as [t|], body as [body|];
    try (left; apply ws_send_bindings).
  cbn [bind_origin].
  destruct (String.eqb ty "bind"); [|left; apply handle_other_bindings].
  destruct (handle_bind_binds w c t s) as [H|(H1 & H2 & H3 & H4)];
    [now left|].
  right. exists c, t. now repeat split.
Qed.

Lemma on_message_same_frame (w : ws) (fr : frame) (s : world) :
  same_frame s (state_of (on_message w fr s)).
Proof.
  destruct fr as [|ty cid tid msg]; [apply ws_send_frame|].
  rewrite on_message_obj. unfold try_except.
  pose proof (frame_body_frame w ty cid tid msg s) as H.
  destruct (frame_body w ty cid tid msg s) as [[] s'|e s']; [exact H|].
  eapply same_frame_trans; [exact H|apply ws_send_frame].
Qed.

(** The end of the block on a store where the binding is as it was read. *)
Lemma inv_finally_end (c p : string) (s : world) (d : list string)
                      (q : list (ws * stage)) :
  inv (client_connections s) (binding_relations s) d q ->
  (Dict.get c (binding_relations s) = Some p \/
   Dict.get c (binding_relations s) = None) ->
  let s' :=
    state_of (bind (finally_end c p) (fun _ => ret (@None stage)) s) in
  inv (client_connections s') (binding_relations s') d q.
Proof.
  intros H Hc. cbv zeta. unfold bind. rewrite finally_end_eq.
  destruct Hc as [Hc|Hc]; rewrite Hc; [|exact H].
  destruct (cancel_timers_of_ok c (unbind c p s))
    as (s' & -> & Hcn & Hbn & _).
  cbn [state_of ret]. rewrite Hcn, Hbn. now apply inv_unbind.
Qed.

Lemma settle_consistent (w : ws) (l : list (ws * string))
                        (q : list (ws * stage)) (d : list string)
                        (r : res (option stage)) :
  match r with
  | Ok (Some st) s' =>
      inv (client_connections s') (binding_relations s') d ((w, st) :: q)
  | Ok None s' | Raise _ s' =>
      inv (client_connections s') (binding_relations s') d q
  end ->
  consistent (settle w l q d r).
Proof. now destruct r as [[st|] s'|e s']. Qed.

Lemma iperform_consistent (a : iaction) (y : isystem) :
  consistent y -> step_ok y a = true -> consistent (iperform a y).
Proof.
  destruct y as [s l q d]. unfold consistent at 1.
  cbn [i_world i_local i_paused i_drawn]. intros H Hok.
  destruct a as [w u|w fr|w|w|k]; cbn [iperform i_world i_local i_paused
                                         i_drawn].
  - destruct (local_of w l); [exact H|].
    destruct (stage_of w q); [exact H|].
    cbn [step_ok i_drawn] in Hok. apply negb_true_iff in Hok.
    assert (Hu : ~ In u d).
    { intros Hin. assert (E : existsb (String.eqb u) d = true).
      { apply existsb_exists. exists u. split; [exact Hin|].
        apply String.eqb_refl. }
      congruence. }
    unfold accept. unfold_monad. cbn.
    destruct (link_of w (sockets s)); cbn; now apply inv_connect.
  - destruct (local_of w l) as [c0|]; [|exact H].
    unfold consistent. cbn [i_world i_paused i_drawn].
    destruct (on_message_same_frame w fr s) as (-> & _).
    destruct (on_message_binds w fr s) as [->|(c & t & Ho & Ht & Hc & Hv & ->)];
      [exact H|].
    cbn [step_ok i_world] in Hok. rewrite Ho in Hok.
    now apply inv_bind.
  - destruct (local_of w l) as [c|]; [|exact H].
    apply settle_consistent. rewrite finally_begin_eq.
    apply (@inv_unregister _ _ _ _ c) in H.
    change (Dict.del c (client_connections s))
      with (client_connections (unregistered c s)) in H.
    change (binding_relations s)
      with (binding_relations (unregistered c s)) in H.
    assert (Hend : forall p,
      Dict.get c (binding_relations s) = Some p ->
      match bind (finally_end c p) (fun _ => ret None) (unregistered c s) with
      | Ok (Some st) s' => inv (client_connections s') (binding_relations s')
                               d ((w, st) :: q)
      | Ok None s' | Raise _ s' =>
          inv (client_connections s') (binding_relations s') d q
      end).
    { intros p Hp.
      pose proof (@inv_finally_end c p (unregistered c s) d q H
                    (or_introl Hp)) as H'.
      cbv zeta in H'. unfold bind in *.
      destruct (finally_end c p (unregistered c s)) as [[] s'|e s'];
        exact H'. }
    destruct (Dict.get c (binding_relations s)) as [p|] eqn:Hc.
    + destruct (Dict.get p (client_connections (unregistered c s)))
        as [wp|]; [|now apply Hend].
      destruct (link_of wp (sockets s)); [|exact H|now apply Hend].
      apply inv_pause; [exact H| |exact Hc].
      apply DictFacts.get_del_eq.
    + unfold bind.
      destruct (cancel_timers_of_ok c (unregistered c s))
        as (s' & -> & Hcn & Hbn & _).
      cbn [ret]. now rewrite Hcn, Hbn.
  - destruct (stage_of w q) as [st|] eqn:Hst; [|exact H].
    apply stage_of_in in Hst. apply settle_consistent.
    pose proof H as (_ & _ & _ & Hq).
    pose proof (Hq _ _ Hst) as Hp. clear Hq.
    destruct st as [c p|c p]; cbn [finally_resume].
    + unfold bind, connection, ws_close, modify, ret.
      destruct (Dict.get p (client_connections s)) as [wt|];
        [|now apply inv_forget].
      eapply inv_paused; [exact H|]. intros w0 st0 [[= <- <-]|Hin].
      * right. exists w, (AfterSend c p). now split.
      * left. now apply forget_stage_in in Hin.
    + destruct Hp as (_ & _ & Hp).
      pose proof (@inv_finally_end c p s d q H Hp) as H'.
      cbv zeta in H'. unfold bind, ret in *.
      destruct (finally_end c p s) as [[] s'|e s'];
        now apply inv_forget.
  - exact H.
Qed.

Lemma irun_from_consistent (acts : list iaction) (y : isystem) :
  consistent y -> admissible y acts = true -> consistent (irun_from y acts).
Proof.
  revert y. induction acts as [|a acts IH]; intros y H Ha; [exact H|].
  cbn [admissible] in Ha. apply andb_true_iff in Ha. destruct Ha as [Ha Hr].
  cbn. apply IH; [now apply iperform_consistent|exact Hr].
Qed.

Lemma iinitial_consistent : consistent iinitial.
Proof.
  repeat split; cbn; try tauto; try discriminate; try constructor.
Qed.

Lemma irun_well_paired (acts : list iaction) :
  admissible iinitial acts = true -> well_paired (i_world (irun acts)).
Proof.
  intros H.
  now destruct (irun_from_consistent acts iinitial_consistent H) as (Hw & _).
Qed.

(** A run in which a block is suspended while the partner's handler runs its
    own: A1 and B1 bind, and so do C1 and D1; A1 leaves and its block waits
    on the send and on the close, B1 leaves in between. *)
Definition crossing : list iaction :=
  [INetwork [(1, Up); (2, Up); (3, Up); (4, Up)];
   IConnect 1 "A1"; IConnect 2 "B1"; IConnect 3 "C1"; IConnect 4 "D1";
   IReceive 1 (bind_frame "A1" "B1" "targetId");
   IReceive 3 (bind_frame "C1" "D1" "targetId");
   IHangup 1; IResume 1; IHangup 2; IResume 1].

(** The same with a third client D1 which, once B1's block has deleted the
    binding, sends a bind request in the name of A1: the block of A1 then
    deletes the entry of A1 and leaves that of D1. *)
Definition race : list iaction :=
  [INetwork [(1, Up); (2, Up); (4, Up)];
   IConnect 1 "A1"; IConnect 2 "B1"; IConnect 4 "D1";
   IReceive 1 (bind_frame "A1" "B1" "targetId");
   IHangup 1; IResume 1; IHangup 2;
   IReceive 4 (bind_frame "A1" "D1" "targetId");
   IResume 1].

(** C4 (amended): in every state reachable by any interleaving of connects,
    received frames, disconnect cleanups cut at their awaits and transport
    changes, in which [uuid4] never returns an identifier twice and every
    bind request names a registered identifier as its origin, the binding
    map is symmetric and exclusive: if A is bound to B then B is bound to A,
    and each identifier has at most one partner. *)
Theorem bindings_symmetric_interleaved (acts : list iaction) :
  admissible iinitial acts = true ->
  symmetric (binding_relations (i_world (irun acts))) /\
  exclusive (binding_relations (i_world (irun acts))).
Proof.
  intros H. destruct (irun_well_paired acts H) as [Hs Hn].
  split; [exact Hs|]. now apply symmetric_exclusive.
Qed.

Lemma bindings_symmetric_interleaved_witness :
  symmetric (binding_relations (i_world (irun crossing))) /\
  exclusive (binding_relations (i_world (irun crossing))).
Proof.
  apply (@bindings_symmetric_interleaved crossing).
  vm_compute. reflexivity.
Defined.

(** The block of A1 in [crossing] ends on [KeyError] at its deletion: B1's
    block has deleted both entries meanwhile.  The other pair stays bound. *)
Remark crossing_ends_on_key_error :
  stage_of 1 (i_paused (irun_from iinitial (firstn 10 crossing)))
  = Some (AfterClose "A1" "B1") /\
  finally_resume (AfterClose "A1" "B1")
                 (i_world (irun_from iinitial (firstn 10 crossing)))
  = Raise KeyError (i_world (irun_from iinitial (firstn 10 crossing))) /\
  binding_relations (i_world (irun crossing))
  = [("C1", "D1"); ("D1", "C1")].
Proof. split; [|split]; vm_compute; reflexivity. Qed.

(** A bind request of a registered client to itself is among these runs: the
    amended invariant cannot say that a binding pairs two identifiers. *)
Remark self_binding_is_admissible :
  admissible iinitial
    [INetwork [(1, Up)]; IConnect 1 "A1";
     IReceive 1 (bind_frame "A1" "A1" "x")] = true /\
  binding_relations
    (i_world (irun [INetwork [(1, Up)]; IConnect 1 "A1";
                    IReceive 1 (bind_frame "A1" "A1" "x")]))
  = [("A1", "A1")].
Proof. split; vm_compute; reflexivity. Qed.

(** Without the condition on the origin of a bind request the map does not
    stay symmetric: [race] ends with D1 bound to A1 and A1 to nothing. *)
Remark unregistered_origin_breaks_symmetry :
  admissible iinitial race = false /\
  binding_relations (i_world (irun race)) = [("D1", "A1")] /\
  ~ symmetric (binding_relations (i_world (irun race))).
Proof.
  assert (E : binding_relations (i_world (irun race)) = [("D1", "A1")])
    by (vm_compute; reflexivity).
  split; [vm_compute; reflexivity|]. split; [exact E|].
  rewrite E. intros H. specialize (H "D1" "A1" eq_refl). discriminate H.
Qed.

(** X15: the bind branch looks for the target among the values of the
    binding map.  In every state reachable by an interleaving in which
    identifiers are drawn fresh and bind requests name a registered origin,
    that scan agrees with asking whether the target has a partner of its
    own: both tests accept and refuse the same identifiers. *)
Theorem values_scan_is_partner_test (acts : list iaction) (t : string) :
  admissible iinitial acts = true ->
  in_values t (binding_relations (i_world (irun acts)))
  = Dict.mem t (binding_relations (i_world (irun acts))).
Proof.
  intros H. destruct (irun_well_paired acts H) as [Hs Hn].
  set (b := binding_relations (i_world (irun acts))) in *.
  destruct (in_values t b) eqn:V.
  - apply in_values_in in V. destruct V as [k Hk].
    apply (nodup_in_get _ _ _ Hn) in Hk. apply Hs in Hk.
    unfold Dict.mem. now rewrite Hk.
  - destruct (Dict.get t b) as [k|] eqn:G.
    + apply Hs in G. apply in_values_get in G. congruence.
    + unfold Dict.mem. now rewrite G.
Qed.

Definition bound_pair_interleaved : list iaction :=
  [INetwork [(1, Up); (2, Up)]; IConnect 1 "A1"; IConnect 2 "B1";
   IReceive 1 (bind_frame "A1" "B1" "targetId")].

Lemma values_scan_is_partner_test_witness :
  in_values "B1" (binding_relations (i_world (irun bound_pair_interleaved)))
  = Dict.mem "B1" (binding_relations (i_world (irun bound_pair_interleaved))).
Proof.
  apply (@values_scan_is_partner_test bound_pair_interleaved "B1").
  vm_compute. reflexivity.
Defined.
